(** * MHWorldData: the [datamap] record store

    A shallow embedding of [mhwdata/io/datamap.py]: the insertion-ordered
    dictionaries, [DataRow], [DataMap] and [NameSet], followed by the
    properties of the store's documentation that were checked against it.

    Python integers are unbounded, so identifiers are [Z].  A [dict] or
    [OrderedDict] whose iteration order matters is an association list with
    Python's update discipline (overwrite in place, append when new); the
    reverse index, which is never iterated, is a [gmap].  A method that
    mutates [self] returns the new state next to its outcome, because the
    mutations made before a [raise] stay visible to the caller. *)

From stdpp Require Import base numbers list strings pretty gmap.

Local Open Scope string_scope.
Local Open Scope list_scope.

(** ** Exceptions and outcomes *)

Inductive exn :=
  | KeyError (msg : string)
  | AttributeError (msg : string)
  | TypeError (msg : string).

Inductive result (A : Type) :=
  | Ok (a : A)
  | Raise (e : exn).
Arguments Ok {A} a.
Arguments Raise {A} e.

(** The two [KeyError]s raised by [DataMap._add_entry], under the names the
    documentation gives them. *)
Definition MissingField : exn := KeyError "An entry is missing a name value".
Definition DuplicateKey : exn := KeyError "An entry with the given key already exists".

(** ** Field values

    Field values are opaque payload, except that of ['name'], which maps
    language codes to display strings. *)
Inductive value :=
  | VStr (s : string)
  | VInt (n : Z)
  | VDict (m : list (string * string)).

(** ** Insertion-ordered dictionaries *)

Module OrderedDict.
Section ops.
Context {K V : Type} `{EqDecision K}.

(** [d.keys()] *)
Definition keys (d : list (K * V)) : list K := d.*1.

(** [d.get(k)] *)
Fixpoint get (k : K) (d : list (K * V)) : option V :=
  match d with
  | [] => None
  | (k', v) :: d' => if decide (k = k') then Some v else get k d'
  end.

(** [k in d] *)
Definition contains (k : K) (d : list (K * V)) : bool :=
  match get k d with Some _ => true | None => false end.

(** [d[k] = v]: an existing key keeps its position, a new one goes last. *)
Fixpoint set (k : K) (v : V) (d : list (K * V)) : list (K * V) :=
  match d with
  | [] => [(k, v)]
  | (k', v') :: d' =>
      if decide (k = k') then (k, v) :: d' else (k', v') :: set k v d'
  end.

(** [del d[k]] on a key that is present. *)
Fixpoint del (k : K) (d : list (K * V)) : list (K * V) :=
  match d with
  | [] => []
  | (k', v') :: d' =>
      if decide (k = k') then d' else (k', v') :: del k d'
  end.
End ops.
End OrderedDict.

Import OrderedDict.

(** ** class DataRow *)

Module DataRow.

Record t := mk { _id : Z; _data : list (string * value) }.

Definition id (self : t) : Z := _id self.

Definition getitem (self : t) (key : string) : result value :=
  match get key (_data self) with
  | Some v => Ok v
  | None => Raise (KeyError key)
  end.

Definition setitem (self : t) (key : string) (v : value) : t :=
  mk (_id self) (set key v (_data self)).

Definition delitem (self : t) (key : string) : t * result () :=
  if contains key (_data self)
  then (mk (_id self) (del key (_data self)), Ok ())
  else (self, Raise (KeyError key)).

Definition iter (self : t) : list string := keys (_data self).

Definition len (self : t) : nat := length (_data self).

(** [self['name'][lang_id]] *)
Definition name (self : t) (lang_id : string) : result string :=
  match getitem self "name" with
  | Raise e => Raise e
  | Ok (VDict m) =>
      match get lang_id m with
      | Some n => Ok n
      | None => Raise (KeyError lang_id)
      end
  | Ok (VStr _) => Raise (TypeError "string indices must be integers")
  | Ok (VInt _) => Raise (TypeError "'int' object is not subscriptable")
  end.

(** [self['name'].items()], drained. *)
Definition names (self : t) : result (list (string * string)) :=
  match getitem self "name" with
  | Raise e => Raise e
  | Ok (VDict m) => Ok m
  | Ok (VStr _) => Raise (AttributeError "'str' object has no attribute 'items'")
  | Ok (VInt _) => Raise (AttributeError "'int' object has no attribute 'items'")
  end.

(** First loop of [set_value]: one iteration, on the pair
    [(found_item, keys_to_move)]. *)
Definition scan_step (after : string) (st : bool * list string)
    (item_key : string) : bool * list string :=
  let '(found_item, keys_to_move) := st in
  if found_item then (true, keys_to_move ++ [item_key])
  else if decide (item_key = after) then (true, keys_to_move)
  else (false, keys_to_move).

Definition scan (after : string) (ks : list string) : bool * list string :=
  foldl (scan_step after) (false, []) ks.

(** Second loop of [set_value]: read, delete and set again each key. *)
Fixpoint move_to_end (keys_to_move : list string)
    (d : list (string * value)) : list (string * value) * result () :=
  match keys_to_move with
  | [] => (d, Ok ())
  | item_key :: rest =>
      match get item_key d with
      | None => (d, Raise (KeyError item_key))
      | Some v => move_to_end rest (set item_key v (del item_key d))
      end
  end.

(** [set_value(key, value, after=after)]; the empty string is falsy. *)
Definition set_value (self : t) (key : string) (v : value)
    (after : string) : t * result () :=
  if decide (after = "") then (setitem self key v, Ok ())
  else
    let keys_to_move := (scan after (keys (_data self))).2 in
    let self1 := setitem self key v in
    let '(d, r) := move_to_end keys_to_move (_data self1) in
    (mk (_id self1) d, r).

End DataRow.

(** ** class DataMap *)

Module DataMap.

Record t := mk {
  _data : list (Z * DataRow.t);
  _reverse_entries : gmap (string * string) Z;
  _id_gen : Z;   (* the next value of [itertools.count] *)
  _last_id : Z
}.

Definition id_of (self : t) (language_code name : string) : option Z :=
  _reverse_entries self !! (language_code, name).

Definition entry_of (self : t) (language_code name : string)
    : option DataRow.t :=
  match id_of self language_code name with
  | Some id_value => get id_value (_data self)
  | None => None
  end.

Definition _generate_id (self : t) : t * Z :=
  let entry_id := _id_gen self in
  (mk (_data self) (_reverse_entries self) (entry_id + 1) entry_id, entry_id).

(** The loop of [_add_entry] over [new_entry.names()]. *)
Definition index_names (entry_id : Z) (nms : list (string * string))
    (rev : gmap (string * string) Z) : gmap (string * string) Z :=
  foldl (fun r '(lang, name) => <[(lang, name) := entry_id]> r) rev nms.

Definition _add_entry (self : t) (entry_id : Z)
    (entry : list (string * value)) : t * result DataRow.t :=
  if negb (contains "name" entry) then (self, Raise MissingField)
  else if contains entry_id (_data self) then (self, Raise DuplicateKey)
  else
    let new_entry := DataRow.mk entry_id entry in
    match DataRow.names new_entry with
    | Raise e => (self, Raise e)
    | Ok nms =>
        (mk (set entry_id new_entry (_data self))
            (index_names entry_id nms (_reverse_entries self))
            (_id_gen self) (_last_id self),
         Ok new_entry)
    end.

Definition add_entry (self : t) (entry_id : Z)
    (entry : list (string * value)) : t * result DataRow.t :=
  let self1 :=
    if (_last_id self <? entry_id)%Z
    then mk (_data self) (_reverse_entries self) (entry_id + 1) entry_id
    else self in
  _add_entry self1 entry_id entry.

Definition insert (self : t) (entry : list (string * value))
    : t * result DataRow.t :=
  let entry_id := _id_gen self in
  let self1 := mk (_data self) (_reverse_entries self)
                  (entry_id + 1) (_last_id self) in
  _add_entry self1 entry_id entry.

Fixpoint extend (self : t) (entries : list (list (string * value)))
    : t * result () :=
  match entries with
  | [] => (self, Ok ())
  | entry :: rest =>
      match insert self entry with
      | (self1, Ok _) => extend self1 rest
      | (self1, Raise e) => (self1, Raise e)
      end
  end.

(** [DataMap()] *)
Definition empty : t := mk [] ∅ 1 0.

(** The loop of [__init__] over [data.items()]. *)
Fixpoint init_loop (self : t) (data : list (Z * list (string * value)))
    : result t :=
  match data with
  | [] => Ok self
  | (id, entry) :: rest =>
      match add_entry self id entry with
      | (self1, Ok _) => init_loop self1 rest
      | (_, Raise e) => Raise e
      end
  end.

(** [DataMap(data)] *)
Definition init (data : list (Z * list (string * value))) : result t :=
  init_loop empty data.

Definition getitem (self : t) (id : Z) : result DataRow.t :=
  match get id (_data self) with
  | Some row => Ok row
  | None => Raise (KeyError (pretty id))
  end.

Definition len (self : t) : nat := length (_data self).

Definition iter (self : t) : list Z := keys (_data self).

End DataMap.

(** ** class NameSet

    A [NameSet] holds a reference to the live [DataMap] and a language code;
    both are arguments here.  [__iter__] is a generator over
    [self._map.values()], which the [Mapping] mixin computes as
    [self._map[key]] for each [key] of [iter(self._map)]: the state of the
    suspended generator is the list of keys still to visit. *)

Module NameSet.

Inductive step :=
  | Yield (name : string) (pending : list Z)
  | Throw (e : exn)
  | StopIteration.

Definition start (backing_data : DataMap.t) : list Z :=
  DataMap.iter backing_data.

(** One [next()] on the generator. *)
Definition next (backing_data : DataMap.t) (language_code : string)
    (pending : list Z) : step :=
  match pending with
  | [] => StopIteration
  | key :: rest =>
      match DataMap.getitem backing_data key with
      | Raise e => Throw e
      | Ok row =>
          match DataRow.name row language_code with
          | Raise e => Throw e
          | Ok n => Yield n rest
          end
      end
  end.

(** Calling [next()] until the generator stops: the names yielded, and the
    exception that ended the iteration, if one did. *)
Fixpoint drain (backing_data : DataMap.t) (language_code : string)
    (pending : list Z) : list string * option exn :=
  match pending with
  | [] => ([], None)
  | key :: rest =>
      match DataMap.getitem backing_data key with
      | Raise e => ([], Some e)
      | Ok row =>
          match DataRow.name row language_code with
          | Raise e => ([], Some e)
          | Ok n =>
              let '(ns, e) := drain backing_data language_code rest in
              (n :: ns, e)
          end
      end
  end.

(** The names of [NameSet(backing_data, language_code)], as a [for] loop
    over it receives them. *)
Definition iter (backing_data : DataMap.t) (language_code : string)
    : list string * option exn :=
  drain backing_data language_code (start backing_data).

(** [key in NameSet(...)]: the truth value of the row found, and a row is
    a mapping, false when it has no field. *)
Definition contains (backing_data : DataMap.t) (language_code key : string)
    : bool :=
  match DataMap.entry_of backing_data language_code key with
  | Some row => negb (Nat.eqb (DataRow.len row) 0)
  | None => false
  end.

End NameSet.

(** ** Sequences of calls on a store *)

Inductive call :=
  | Insert (entry : list (string * value))
  | AddEntry (entry_id : Z) (entry : list (string * value)).

Definition exec (self : DataMap.t) (c : call) : DataMap.t * result DataRow.t :=
  match c with
  | Insert entry => DataMap.insert self entry
  | AddEntry entry_id entry => DataMap.add_entry self entry_id entry
  end.

Fixpoint run (self : DataMap.t) (cs : list call)
    : DataMap.t * list (result DataRow.t) :=
  match cs with
  | [] => (self, [])
  | c :: cs' =>
      let '(self1, r) := exec self c in
      let '(self2, rs) := run self1 cs' in
      (self2, r :: rs)
  end.

(** The rows a sequence of calls returned, in the order of the calls. *)
Fixpoint added (rs : list (result DataRow.t)) : list DataRow.t :=
  match rs with
  | [] => []
  | Ok row :: rs' => row :: added rs'
  | Raise _ :: rs' => added rs'
  end.

(** The identifier a call tries to assign, and the fields it is given. *)
Definition target (self : DataMap.t) (c : call) : Z :=
  match c with
  | Insert _ => DataMap._id_gen self
  | AddEntry entry_id _ => entry_id
  end.

Definition payload (c : call) : list (string * value) :=
  match c with
  | Insert entry => entry
  | AddEntry _ entry => entry
  end.

(** The state a store is in after some calls on a new [DataMap()]. *)
Definition reachable (s : DataMap.t) : Prop :=
  ∃ cs, (run DataMap.empty cs).1 = s.

(** ** Sample data *)

(** A raw entry with an English name only. *)
Definition named (n : string) : list (string * value) :=
  [("name", VDict [("en", n)])].

(** A row with the fields a, b, c, d. *)
Definition abcd : DataRow.t :=
  DataRow.mk 0 [("a", VInt 1); ("b", VInt 2); ("c", VInt 3); ("d", VInt 4)].

(** ** The two indices of a store

    What the rows and the reverse index of a store have to do with each
    other as long as rows come in through [insert] and [add_entry] only: no
    identifier twice, each row under its own identifier and with name
    translations, each of these in the reverse index, and each entry of the
    reverse index pointing to a row that carries that name. *)
Definition consistent (s : DataMap.t) : Prop :=
  NoDup (DataMap.iter s) ∧
  (∀ k r, (k, r) ∈ DataMap._data s →
     DataRow.id r = k ∧
     ∃ nms, DataRow.names r = Ok nms ∧
            ∀ lang nm, (lang, nm) ∈ nms → is_Some (DataMap.id_of s lang nm)) ∧
  (∀ lang nm id, DataMap.id_of s lang nm = Some id →
     ∃ r nms, (id, r) ∈ DataMap._data s ∧
              DataRow.names r = Ok nms ∧ (lang, nm) ∈ nms).

(** * Properties *)

(** ** Facts on ordered dictionaries *)

Section odict_facts.
Context {K V : Type} `{EqDecision K}.
Implicit Types (k : K) (v : V) (d : list (K * V)).

Lemma get_None_keys k d : get k d = None ↔ k ∉ keys d.
Proof.
  unfold keys. induction d as [|[k' v'] d IH]; simpl.
  - split; [intros _; apply not_elem_of_nil | done].
  - rewrite not_elem_of_cons. destruct (decide (k = k')) as [->|Hne].
    + split; [done | intros [? _]; done].
    + rewrite IH. tauto.
Qed.

Lemma contains_keys k d : contains k d = true ↔ k ∈ keys d.
Proof.
  unfold contains. destruct (get k d) eqn:E.
  - split; [intros _ | done].
    destruct (decide (k ∈ keys d)) as [|Hn]; [done|].
    apply get_None_keys in Hn. congruence.
  - split; [done | intros Hin]. apply get_None_keys in E. done.
Qed.

Lemma contains_false_keys k d : contains k d = false ↔ k ∉ keys d.
Proof.
  rewrite <- contains_keys. destruct (contains k d); split; congruence.
Qed.

Lemma set_fresh k v d : k ∉ keys d → set k v d = d ++ [(k, v)].
Proof.
  unfold keys. induction d as [|[k' v'] d IH]; simpl; [done|].
  rewrite not_elem_of_cons. intros [Hne Hd].
  destruct (decide (k = k')); [done|]. by rewrite IH.
Qed.

Lemma set_present k v d :
  k ∈ keys d →
  ∃ pre v0 post,
    d = pre ++ ((k, v0) :: post) ∧ (k ∉ keys pre) ∧
    set k v d = pre ++ ((k, v) :: post).
Proof.
  unfold keys. induction d as [|[k' v'] d IH]; simpl.
  - intros Hin. by apply elem_of_nil in Hin.
  - intros Hin. destruct (decide (k = k')) as [->|Hne].
    + exists [], v', d. split_and!; [done | apply not_elem_of_nil | done].
    + apply elem_of_cons in Hin as [?|Hin]; [done|].
      destruct (IH Hin) as (pre & v0 & post & -> & Hpre & Hset).
      exists ((k', v') :: pre), v0, post. simpl. split_and!.
      * done.
      * by apply not_elem_of_cons.
      * by rewrite Hset.
Qed.

Lemma keys_set_present k v d : k ∈ keys d → keys (set k v d) = keys d.
Proof.
  intros Hin. destruct (set_present k v d Hin) as (pre & v0 & post & -> & _ & ->).
  unfold keys. by rewrite !fmap_app.
Qed.

Lemma get_set_eq k v d : get k (set k v d) = Some v.
Proof.
  induction d as [|[k' v'] d IH]; simpl.
  - by rewrite decide_True.
  - destruct (decide (k = k')) as [->|Hne]; simpl.
    + by rewrite decide_True.
    + by rewrite decide_False.
Qed.

Lemma get_set_ne k k' v d : k ≠ k' → get k' (set k v d) = get k' d.
Proof.
  intros Hne. induction d as [|[k0 v0] d IH]; simpl.
  - by rewrite decide_False.
  - destruct (decide (k = k0)) as [->|Hne0]; simpl.
    + by rewrite !decide_False.
    + destruct (decide (k' = k0)); [done | apply IH].
Qed.

Lemma get_middle k v pre post :
  k ∉ keys pre → get k (pre ++ ((k, v) :: post)) = Some v.
Proof.
  unfold keys. induction pre as [|[k' v'] pre IH]; simpl.
  - intros _. by rewrite decide_True.
  - rewrite not_elem_of_cons. intros [Hne Hpre].
    rewrite decide_False; [by apply IH | done].
Qed.

Lemma del_middle k v pre post :
  k ∉ keys pre → del k (pre ++ ((k, v) :: post)) = pre ++ post.
Proof.
  unfold keys. induction pre as [|[k' v'] pre IH]; simpl.
  - intros _. by rewrite decide_True.
  - rewrite not_elem_of_cons. intros [Hne Hpre].
    rewrite decide_False; [by rewrite IH | done].
Qed.

Lemma keys_app d1 d2 : keys (d1 ++ d2) = keys d1 ++ keys d2.
Proof. unfold keys. apply fmap_app. Qed.

Lemma keys_cons k v d : keys ((k, v) :: d) = k :: keys d.
Proof. done. Qed.

Lemma get_elem_of k v d : get k d = Some v → (k, v) ∈ d.
Proof.
  induction d as [|[k' v'] d IH]; simpl; [done|].
  destruct (decide (k = k')) as [->|Hne].
  - intros [= ->]. apply elem_of_cons. by left.
  - intros Hg. apply elem_of_cons. right. by apply IH.
Qed.

Lemma get_NoDup k v d : NoDup (keys d) → (k, v) ∈ d → get k d = Some v.
Proof.
  unfold keys. induction d as [|[k' v'] d IH]; simpl.
  - intros _ Hin. by apply elem_of_nil in Hin.
  - rewrite NoDup_cons. intros [Hk' Hnd] Hin.
    apply elem_of_cons in Hin as [[= -> ->]|Hin].
    + by rewrite decide_True.
    + rewrite decide_False; [by apply IH|].
      intros ->. apply Hk'. apply list_elem_of_fmap. by exists (k', v).
Qed.
End odict_facts.

(** ** [DataRow.set_value] *)

Section set_value_facts.
Implicit Types (d : list (string * value)) (ks : list string).

Lemma scan_found after acc ks :
  foldl (DataRow.scan_step after) (true, acc) ks = (true, acc ++ ks).
Proof.
  revert acc. induction ks as [|k ks IH]; intros acc; simpl.
  - by rewrite app_nil_r.
  - rewrite IH. by rewrite <- app_assoc.
Qed.

Lemma scan_absent after ks : after ∉ ks → DataRow.scan after ks = (false, []).
Proof.
  unfold DataRow.scan. induction ks as [|k ks IH]; simpl; [done|].
  rewrite not_elem_of_cons. intros [Hne Hks].
  rewrite decide_False; [by apply IH | done].
Qed.

Lemma scan_split after pre post :
  after ∉ pre → DataRow.scan after (pre ++ after :: post) = (true, post).
Proof.
  unfold DataRow.scan. induction pre as [|k pre IH]; simpl.
  - intros _. rewrite decide_True; [|done]. apply scan_found.
  - rewrite not_elem_of_cons. intros [Hne Hpre].
    rewrite decide_False; [by apply IH | done].
Qed.

(** The rows of [mv], re-set one after the other, end up behind [l2] in
    their original order. *)
Lemma move_to_end_block l1 mv l2 :
  NoDup (keys (l1 ++ mv ++ l2)) →
  DataRow.move_to_end (keys mv) (l1 ++ mv ++ l2) = (l1 ++ l2 ++ mv, Ok ()).
Proof.
  revert l2. induction mv as [|[k v] mv IH]; intros l2 Hnd; simpl.
  - by rewrite app_nil_r.
  - assert (keys (l1 ++ ((k, v) :: mv) ++ l2)
            ≡ₚ k :: keys (l1 ++ mv ++ l2)) as Hp.
    { rewrite !keys_app, keys_cons. solve_Permutation. }
    rewrite Hp in Hnd. apply NoDup_cons in Hnd as [Hk Hnd].
    assert (k ∉ keys l1) as Hkl1.
    { intros Hin. apply Hk. rewrite keys_app. apply elem_of_app. by left. }
    rewrite get_middle, del_middle by done. rewrite set_fresh by done.
    rewrite <- !app_assoc. rewrite IH.
    + by rewrite <- !app_assoc.
    + assert (keys (l1 ++ mv ++ l2 ++ [(k, v)])
              ≡ₚ k :: keys (l1 ++ mv ++ l2)) as ->.
      { rewrite !keys_app, keys_cons. simpl. solve_Permutation. }
      by apply NoDup_cons.
Qed.

Lemma set_value_absent_anchor self key v after :
  after ∉ DataRow.iter self →
  DataRow.set_value self key v after = (DataRow.setitem self key v, Ok ()).
Proof.
  intros Habs. unfold DataRow.set_value.
  destruct (decide (after = "")); [done|].
  rewrite scan_absent by done. simpl. by destruct self.
Qed.
End set_value_facts.

(** ** [DataMap]: the insertion path *)

Section add_entry_facts.
Implicit Types (s : DataMap.t) (e : list (string * value)) (id : Z).

Lemma index_names_elem id nms rev lang nm :
  (lang, nm) ∈ nms → DataMap.index_names id nms rev !! (lang, nm) = Some id.
Proof.
  unfold DataMap.index_names. revert rev.
  induction nms as [|[l n] nms IH]; intros rev Hin; simpl.
  - by apply elem_of_nil in Hin.
  - destruct (decide ((lang, nm) ∈ nms)) as [Hin'|Hout]; [by apply IH|].
    apply elem_of_cons in Hin as [[= <- <-]|?]; [|done].
    clear IH. revert rev. induction nms as [|[l' n'] nms IH]; intros rev; simpl.
    + apply lookup_insert_eq.
    + apply not_elem_of_cons in Hout as [Hne Hout].
      rewrite insert_insert_ne by done. by apply IH.
Qed.

Lemma index_names_other id nms rev lang nm :
  (lang, nm) ∉ nms → DataMap.index_names id nms rev !! (lang, nm) = rev !! (lang, nm).
Proof.
  unfold DataMap.index_names. revert rev.
  induction nms as [|[l n] nms IH]; intros rev Hout; simpl; [done|].
  apply not_elem_of_cons in Hout as [Hne Hout].
  rewrite IH by done. by apply lookup_insert_ne.
Qed.

(** The three ways out of [_add_entry] before it writes anything, and the
    state it leaves when it goes through. *)
Lemma _add_entry_missing_name s id e :
  contains "name" e = false →
  DataMap._add_entry s id e = (s, Raise MissingField).
Proof. intros He. unfold DataMap._add_entry. by rewrite He. Qed.

Lemma _add_entry_duplicate s id e :
  contains "name" e = true → id ∈ DataMap.iter s →
  DataMap._add_entry s id e = (s, Raise DuplicateKey).
Proof.
  intros He Hin. unfold DataMap._add_entry. rewrite He. simpl.
  apply contains_keys in Hin. by rewrite Hin.
Qed.

Lemma _add_entry_fresh s id e nms :
  get "name" e = Some (VDict nms) → id ∉ DataMap.iter s →
  DataMap._add_entry s id e
  = (DataMap.mk (DataMap._data s ++ [(id, DataRow.mk id e)])
       (DataMap.index_names id nms (DataMap._reverse_entries s))
       (DataMap._id_gen s) (DataMap._last_id s),
     Ok (DataRow.mk id e)).
Proof.
  intros He Hid. unfold DataMap._add_entry.
  assert (contains "name" e = true) as -> by (unfold contains; by rewrite He).
  simpl. rewrite (proj2 (contains_false_keys _ _) Hid).
  unfold DataRow.names, DataRow.getitem. simpl. rewrite He.
  by rewrite set_fresh.
Qed.

Lemma _add_entry_Ok s id e s' r :
  DataMap._add_entry s id e = (s', Ok r) →
  ∃ nms, get "name" e = Some (VDict nms) ∧ (id ∉ DataMap.iter s) ∧
         r = DataRow.mk id e ∧
         s' = DataMap.mk (DataMap._data s ++ [(id, r)])
                (DataMap.index_names id nms (DataMap._reverse_entries s))
                (DataMap._id_gen s) (DataMap._last_id s).
Proof.
  intros Hadd.
  destruct (contains "name" e) eqn:He.
  2:{ rewrite _add_entry_missing_name in Hadd by done. congruence. }
  destruct (decide (id ∈ DataMap.iter s)) as [Hin|Hout].
  { rewrite _add_entry_duplicate in Hadd by done. congruence. }
  destruct (get "name" e) as [[?|?|nms]|] eqn:Hg.
  4:{ unfold contains in He. by rewrite Hg in He. }
  1,2: unfold DataMap._add_entry in Hadd; rewrite He in Hadd; simpl in Hadd;
    rewrite (proj2 (contains_false_keys _ _) Hout) in Hadd;
    unfold DataRow.names, DataRow.getitem in Hadd; simpl in Hadd;
    rewrite Hg in Hadd; congruence.
  rewrite (_add_entry_fresh _ _ _ nms) in Hadd by done.
    injection Hadd as <- <-. by exists nms.
Qed.

Lemma _add_entry_Raise s id e s' x :
  DataMap._add_entry s id e = (s', Raise x) → s' = s.
Proof.
  unfold DataMap._add_entry. intros Hadd.
  destruct (negb (contains "name" e)); [congruence|].
  destruct (contains id (DataMap._data s)); [congruence|].
  destruct (DataRow.names _); congruence.
Qed.
End add_entry_facts.

(** ** Calls on a store *)

Section exec_facts.
Implicit Types (s : DataMap.t) (c : call) (cs : list call).

(** Both entry points end in [_add_entry], on a store that differs from
    the caller's in its generator state only. *)
Lemma exec_add_entry s c :
  ∃ g l, exec s c
         = DataMap._add_entry
             (DataMap.mk (DataMap._data s) (DataMap._reverse_entries s) g l)
             (target s c) (payload c).
Proof.
  destruct c as [e|id e]; simpl.
  - unfold DataMap.insert. eauto.
  - unfold DataMap.add_entry. destruct (_ <? _)%Z; [eauto|].
    exists (DataMap._id_gen s), (DataMap._last_id s). by destruct s.
Qed.

Lemma exec_Ok s c s' r :
  exec s c = (s', Ok r) →
  ∃ nms, get "name" (payload c) = Some (VDict nms) ∧
         (target s c ∉ DataMap.iter s) ∧
         r = DataRow.mk (target s c) (payload c) ∧
         DataMap._data s' = DataMap._data s ++ [(target s c, r)] ∧
         DataMap._reverse_entries s'
         = DataMap.index_names (target s c) nms (DataMap._reverse_entries s).
Proof.
  destruct (exec_add_entry s c) as (g & l & ->). intros Hadd.
  apply _add_entry_Ok in Hadd as (nms & Hn & Hid & -> & ->).
  exists nms. by split_and!.
Qed.

Lemma exec_Raise s c s' x :
  exec s c = (s', Raise x) →
  DataMap._data s' = DataMap._data s ∧
  DataMap._reverse_entries s' = DataMap._reverse_entries s.
Proof.
  destruct (exec_add_entry s c) as (g & l & ->). intros Hadd.
  apply _add_entry_Raise in Hadd as ->. done.
Qed.

(** No call makes two rows share an identifier. *)
Lemma exec_NoDup s c : NoDup (DataMap.iter s) → NoDup (DataMap.iter (exec s c).1).
Proof.
  intros Hnd. destruct (exec s c) as [s' [r|x]] eqn:E; simpl.
  - apply exec_Ok in E as (nms & _ & Hid & _ & Hd & _).
    unfold DataMap.iter in *. rewrite Hd, keys_app. simpl.
    apply NoDup_app. split_and!; [done| |apply NoDup_singleton].
    intros k Hk Hk'. apply list_elem_of_singleton in Hk'. by subst k.
  - apply exec_Raise in E as [Hd _]. unfold DataMap.iter. by rewrite Hd.
Qed.

(** The generator stays above [_last_id], whatever the call and whether
    or not it raises. *)
Lemma exec_gen_above_last_id s c :
  (DataMap._last_id s < DataMap._id_gen s)%Z →
  (DataMap._last_id (exec s c).1 < DataMap._id_gen (exec s c).1)%Z.
Proof.
  intros Hinv.
  assert (∀ s0 id e, (DataMap._last_id s0 < DataMap._id_gen s0)%Z →
            (DataMap._last_id (DataMap._add_entry s0 id e).1
             < DataMap._id_gen (DataMap._add_entry s0 id e).1)%Z) as Hadd.
  { intros s0 id e H0. destruct (DataMap._add_entry s0 id e) as [s' [r|x]] eqn:E.
    - apply _add_entry_Ok in E as (nms & _ & _ & _ & ->). done.
    - apply _add_entry_Raise in E as ->. done. }
  destruct c as [e|id e]; simpl.
  - unfold DataMap.insert. apply Hadd. simpl. lia.
  - unfold DataMap.add_entry. apply Hadd.
    destruct (_ <? _)%Z; simpl; lia.
Qed.

Lemma run_app s cs1 cs2 :
  run s (cs1 ++ cs2)
  = ((run (run s cs1).1 cs2).1, (run s cs1).2 ++ (run (run s cs1).1 cs2).2).
Proof.
  revert s. induction cs1 as [|c cs1 IH]; intros s; simpl.
  - by destruct (run s cs2).
  - destruct (exec s c) as [s1 r]. rewrite IH.
    destruct (run s1 cs1) as [s2 rs]. done.
Qed.

Lemma run_invariant (P : DataMap.t → Prop) s cs :
  (∀ s0 c, P s0 → P (exec s0 c).1) → P s → P (run s cs).1.
Proof.
  intros Hstep. revert s. induction cs as [|c cs IH]; intros s Hs; simpl; [done|].
  specialize (Hstep s c Hs). destruct (exec s c) as [s1 r].
  specialize (IH s1 Hstep). destruct (run s1 cs) as [s2 rs]. done.
Qed.

Lemma reachable_NoDup s : reachable s → NoDup (DataMap.iter s).
Proof.
  intros [cs <-]. apply run_invariant; [apply exec_NoDup | apply NoDup_nil_2].
Qed.

Lemma reachable_gen_above_last_id s :
  reachable s → (DataMap._last_id s < DataMap._id_gen s)%Z.
Proof.
  intros [cs <-]. apply run_invariant; [apply exec_gen_above_last_id | done].
Qed.
End exec_facts.

(** ** [NameSet]: iteration *)

Section nameset_facts.
Implicit Types (s : DataMap.t) (L : string) (ks : list Z).

(** [drain] is [next] called until it stops. *)
Lemma drain_next s L ks :
  NameSet.drain s L ks
  = match NameSet.next s L ks with
    | NameSet.Yield n rest =>
        (n :: (NameSet.drain s L rest).1, (NameSet.drain s L rest).2)
    | NameSet.Throw e => ([], Some e)
    | NameSet.StopIteration => ([], None)
    end.
Proof.
  destruct ks as [|k ks]; simpl; [done|].
  destruct (DataMap.getitem s k) as [row|x]; [|done].
  destruct (DataRow.name row L) as [n|x]; [|done].
  by destruct (NameSet.drain s L ks).
Qed.

Lemma getitem_row s k r :
  NoDup (DataMap.iter s) → (k, r) ∈ DataMap._data s →
  DataMap.getitem s k = Ok r.
Proof.
  intros Hnd Hin. unfold DataMap.getitem.
  by rewrite (get_NoDup k r (DataMap._data s)).
Qed.

Lemma drain_named_prefix s L pre ns ks :
  (∀ k r, (k, r) ∈ pre → DataMap.getitem s k = Ok r) →
  Forall2 (λ kr n, DataRow.name kr.2 L = Ok n) pre ns →
  NameSet.drain s L (keys pre ++ ks)
  = (ns ++ (NameSet.drain s L ks).1, (NameSet.drain s L ks).2).
Proof.
  intros Hget Hnames. induction Hnames as [|[k r] n pre ns Hn Hrest IH]; simpl.
  - by destruct (NameSet.drain s L ks).
  - rewrite (Hget k r) by (apply elem_of_cons; by left).
    simpl in Hn. rewrite Hn. rewrite IH.
    + done.
    + intros k' r' Hin. apply Hget. apply elem_of_cons. by right.
Qed.

Lemma next_named s L pre ns ks i n :
  (∀ k r, (k, r) ∈ pre → DataMap.getitem s k = Ok r) →
  Forall2 (λ kr n, DataRow.name kr.2 L = Ok n) pre ns →
  ns !! i = Some n →
  NameSet.next s L (drop i (keys pre ++ ks))
  = NameSet.Yield n (drop (S i) (keys pre ++ ks)).
Proof.
  intros Hget Hnames. revert i.
  induction Hnames as [|[k r] n0 pre ns Hn Hrest IH]; intros i Hi.
  - done.
  - destruct i as [|i]; simpl in *.
    + injection Hi as ->. rewrite (Hget k r) by (apply elem_of_cons; by left).
      rewrite Hn. by rewrite drop_0.
    + apply IH; [|done]. intros k' r' Hin. apply Hget. apply elem_of_cons. by right.
Qed.
End nameset_facts.

(** * The documented properties, on the code *)

(** ** Field order: [set_value] *)

(** C4, as the code has it.  When [after] is a non-empty name of a field of
    the row and [key] is not yet a field of it, [set_value] leaves the fields
    before the anchor and the anchor where they were, puts [key] directly
    behind the anchor, and the fields that followed the anchor behind [key],
    in their former order.  (A dictionary has no two equal keys.) *)
Theorem set_value_places_new_field_after_anchor self key v after pre va post :
  after ≠ "" →
  DataRow._data self = pre ++ ((after, va) :: post) →
  NoDup (DataRow.iter self) →
  key ∉ DataRow.iter self →
  DataRow.set_value self key v after
  = (DataRow.mk (DataRow._id self)
       (pre ++ ((after, va) :: (key, v) :: post)), Ok ()).
Proof.
  intros Hne Hd Hnd Hkey. unfold DataRow.set_value, DataRow.iter in *.
  rewrite decide_False by done.
  unfold DataRow.setitem. simpl. rewrite set_fresh by done.
  rewrite Hd in *. rewrite keys_app in *. simpl in *.
  assert (after ∉ keys pre) as Hpre.
  { apply NoDup_app in Hnd as (_ & Hdisj & _). intros Hin.
    apply (Hdisj _ Hin). apply elem_of_cons. by left. }
  rewrite scan_split by done. simpl.
  pose proof (move_to_end_block (pre ++ [(after, va)]) post [(key, v)]) as Hmv.
  rewrite <- !app_assoc in Hmv. simpl in Hmv. rewrite <- app_assoc. simpl.
  rewrite Hmv.
  - done.
  - assert (keys (pre ++ ((after, va) :: post ++ [(key, v)]))
            ≡ₚ key :: (keys pre ++ after :: keys post)) as ->.
    { rewrite keys_app, keys_cons, keys_app. simpl. solve_Permutation. }
    by apply NoDup_cons.
Qed.

Lemma set_value_places_new_field_after_anchor_witness :
  DataRow.set_value abcd "e" (VInt 5) "b"
  = (DataRow.mk 0 [("a", VInt 1); ("b", VInt 2); ("e", VInt 5);
                   ("c", VInt 3); ("d", VInt 4)], Ok ()).
Proof.
  apply (set_value_places_new_field_after_anchor abcd "e" (VInt 5) "b"
           [("a", VInt 1)] (VInt 2) [("c", VInt 3); ("d", VInt 4)]).
  - discriminate.
  - reflexivity.
  - compute_done.
  - compute_done.
Defined.

(** C4 as documented fails on a field that is already in the row: with
    fields a, b, c, d, [set_value('a', 9, after='b')] overwrites [a] where it
    is, and [a] does not come to stand behind [b].  It also fails on the
    anchor [''], which [set_value] takes for no anchor at all even when a
    field has that name. *)
Lemma set_value_existing_field_keeps_its_place :
  ("b" ∈ DataRow.iter abcd ∧
   (DataRow.set_value abcd "a" (VInt 9) "b").2 = Ok () ∧
   DataRow.iter (DataRow.set_value abcd "a" (VInt 9) "b").1
   = ["a"; "b"; "c"; "d"] ∧
   ¬ ∃ l1 l2, DataRow.iter (DataRow.set_value abcd "a" (VInt 9) "b").1
              = l1 ++ "b" :: "a" :: l2)
  ∧ (let r := DataRow.mk 0 [("", VInt 1); ("x", VInt 2)] in
     "" ∈ DataRow.iter r ∧
     DataRow.iter (DataRow.set_value r "e" (VInt 9) "").1 = [""; "x"; "e"] ∧
     ¬ ∃ l1 l2, DataRow.iter (DataRow.set_value r "e" (VInt 9) "").1
                = l1 ++ "" :: "e" :: l2).
Proof.
  split; [|intros r]; split_and!.
  - compute_done.
  - reflexivity.
  - reflexivity.
  - intros (l1 & l2 & Heq). vm_compute in Heq.
    destruct l1 as [|x1 [|x2 [|x3 [|x4 [|x5 l1]]]]]; simplify_eq.
  - compute_done.
  - reflexivity.
  - intros (l1 & l2 & Heq). vm_compute in Heq.
    destruct l1 as [|x1 [|x2 [|x3 [|x4 l1]]]]; simplify_eq.
Qed.

(** C5.  With fields a, b, c, d and a new field e,
    [set_value('e', v, after='b')] gives the order a, b, e, c, d; and with an
    anchor that is not a field of the row, [set_value] is [self[key] = value]:
    a new key goes to the end, an existing key is overwritten where it is,
    and every other field keeps its place and value. *)
Theorem set_value_example_and_absent_anchor :
  (∀ id va vb vc vd v,
     DataRow.set_value
       (DataRow.mk id [("a", va); ("b", vb); ("c", vc); ("d", vd)]) "e" v "b"
     = (DataRow.mk id [("a", va); ("b", vb); ("e", v); ("c", vc); ("d", vd)],
        Ok ()))
  ∧ (∀ self key v after,
       after ∉ DataRow.iter self →
       DataRow.set_value self key v after = (DataRow.setitem self key v, Ok ())
       ∧ (key ∉ DataRow.iter self →
          DataRow._data (DataRow.setitem self key v)
          = DataRow._data self ++ [(key, v)])
       ∧ (key ∈ DataRow.iter self →
          ∃ pre v0 post,
            DataRow._data self = pre ++ ((key, v0) :: post) ∧
            (key ∉ keys pre) ∧
            DataRow._data (DataRow.setitem self key v)
            = pre ++ ((key, v) :: post))).
Proof.
  split.
  - intros. reflexivity.
  - intros self key v after Habs. split_and!.
    + by apply set_value_absent_anchor.
    + intros Hnew. simpl. by apply set_fresh.
    + intros Hold. simpl. by apply set_present.
Qed.

Lemma set_value_example_and_absent_anchor_witness :
  DataRow.set_value abcd "e" (VInt 5) "z"
  = (DataRow.mk 0 [("a", VInt 1); ("b", VInt 2); ("c", VInt 3);
                   ("d", VInt 4); ("e", VInt 5)], Ok ()).
Proof.
  destruct (proj2 set_value_example_and_absent_anchor abcd "e" (VInt 5) "z")
    as (Hset & Hnew & _).
  - compute_done.
  - rewrite Hset. f_equal.
Defined.

(** ** Identifier generation *)

(** C1.  [insert] takes the next value of the generator and leaves [_last_id]
    as it was ([_generate_id], which would record it, is never called), so
    [add_entry] compares against a stale [_last_id] and can set the
    generator back.  After [insert] twice (identifiers 1 and 2) and
    [add_entry(1, ...)], which raises, the generator is at 2 again and the
    next [insert] draws 2, an identifier in use.  With two inserts rejected
    for a missing name before a successful one (identifier 3),
    [add_entry(1, ...)] succeeds and the next [insert] is given 2, below 3. *)
Theorem generator_set_back_below_assigned_identifiers :
  (let s := (run DataMap.empty
               [Insert (named "A"); Insert (named "B");
                AddEntry 1 (named "C")]).1 in
   DataMap.iter s = [1; 2]%Z ∧
   DataMap._id_gen s = 2%Z ∧ DataMap._last_id s = 1%Z ∧
   DataMap.insert s (named "D")
   = (DataMap.mk (DataMap._data s) (DataMap._reverse_entries s) 3 1,
      Raise DuplicateKey))
  ∧ (let out := run DataMap.empty
                  [Insert []; Insert []; Insert (named "A");
                   AddEntry 1 (named "B"); Insert (named "C")] in
     DataRow.id <$> added out.2 = [3; 1; 2]%Z ∧
     DataMap.iter out.1 = [3; 1; 2]%Z).
Proof. split; vm_compute; by split_and!. Qed.

(** C6.  On a new store, [insert(e)] and [add_entry(1, e)], 1 being the next
    value of the generator, return the same row and leave the same rows,
    the same reverse index and the same generator, but [insert] leaves
    [_last_id] at 0 where [add_entry] sets it to 1. *)
Theorem insert_leaves_last_id_behind :
  let c := DataMap._id_gen DataMap.empty in
  let i := DataMap.insert DataMap.empty (named "A") in
  let a := DataMap.add_entry DataMap.empty c (named "A") in
  c = 1%Z ∧ i.2 = a.2 ∧
  DataMap._data i.1 = DataMap._data a.1 ∧
  DataMap._reverse_entries i.1 = DataMap._reverse_entries a.1 ∧
  DataMap._id_gen i.1 = 2%Z ∧ DataMap._id_gen a.1 = 2%Z ∧
  DataMap._last_id i.1 = 0%Z ∧ DataMap._last_id a.1 = 1%Z.
Proof. vm_compute. by split_and!. Qed.

(** The same on every store whose generator is above [_last_id]: the two
    calls differ in [_last_id] and in nothing else. *)
Lemma insert_add_entry_next s e :
  (DataMap._last_id s < DataMap._id_gen s)%Z →
  let c := DataMap._id_gen s in
  let i := DataMap.insert s e in
  let a := DataMap.add_entry s c e in
  i.2 = a.2 ∧
  DataMap._data i.1 = DataMap._data a.1 ∧
  DataMap._reverse_entries i.1 = DataMap._reverse_entries a.1 ∧
  DataMap._id_gen i.1 = (c + 1)%Z ∧ DataMap._id_gen a.1 = (c + 1)%Z ∧
  DataMap._last_id i.1 = DataMap._last_id s ∧ DataMap._last_id a.1 = c.
Proof.
  intros Hinv. simpl. unfold DataMap.insert, DataMap.add_entry.
  rewrite (proj2 (Z.ltb_lt _ _) Hinv).
  set (si := DataMap.mk _ _ _ (DataMap._last_id s)).
  set (sa := DataMap.mk _ _ _ (DataMap._id_gen s)).
  destruct (DataMap._add_entry si (DataMap._id_gen s) e) as [si' [r|x]] eqn:Ei.
  - apply _add_entry_Ok in Ei as (nms & Hn & Hid & -> & ->).
    rewrite (_add_entry_fresh sa _ _ nms) by done. simpl. by split_and!.
  - pose proof Ei as Es. apply _add_entry_Raise in Es as ->.
    unfold DataMap._add_entry in *. simpl in *.
    destruct (negb (contains "name" e)); [simplify_eq; by split_and!|].
    destruct (contains (DataMap._id_gen s) (DataMap._data s));
      [simplify_eq; by split_and!|].
    destruct (DataRow.names _); simplify_eq. by split_and!.
Qed.

(** ** Rejected calls *)

(** C2, as the code has it.  [add_entry] with an identifier that is in the
    store and an entry that has a ['name'] raises the duplicate [KeyError]
    and leaves the rows and the reverse index as they were; when the
    identifier is not above [_last_id], the store is unchanged altogether. *)
Theorem add_entry_duplicate_named s id e :
  id ∈ DataMap.iter s → contains "name" e = true →
  (DataMap.add_entry s id e).2 = Raise DuplicateKey ∧
  DataMap._data (DataMap.add_entry s id e).1 = DataMap._data s ∧
  DataMap._reverse_entries (DataMap.add_entry s id e).1
  = DataMap._reverse_entries s ∧
  ((id ≤ DataMap._last_id s)%Z → (DataMap.add_entry s id e).1 = s).
Proof.
  intros Hin He. unfold DataMap.add_entry.
  destruct (DataMap._last_id s <? id)%Z eqn:Hlt.
  - rewrite _add_entry_duplicate by done. simpl. split_and!; try done.
    apply Z.ltb_lt in Hlt. lia.
  - by rewrite _add_entry_duplicate.
Qed.

Lemma add_entry_duplicate_named_witness :
  let s := (DataMap.add_entry DataMap.empty 1 (named "A")).1 in
  (DataMap.add_entry s 1 (named "B")).2 = Raise DuplicateKey ∧
  (DataMap.add_entry s 1 (named "B")).1 = s.
Proof.
  intros s.
  destruct (add_entry_duplicate_named s 1 (named "B")) as (Hr & _ & _ & Hs).
  - compute_done.
  - reflexivity.
  - split; [exact Hr | apply Hs; compute_done].
Defined.

(** C2 as documented fails on an entry without a ['name']: the identifier 1
    is in the store, and [add_entry(1, {})] raises the missing-name
    [KeyError], not the duplicate one. *)
Lemma add_entry_duplicate_nameless_not_DuplicateKey :
  let s := (DataMap.add_entry DataMap.empty 1 (named "A")).1 in
  1%Z ∈ DataMap.iter s ∧
  DataMap.add_entry s 1 [] = (s, Raise MissingField) ∧
  DataMap.add_entry s 1 [] ≠ (s, Raise DuplicateKey).
Proof.
  intros s. split_and!.
  - compute_done.
  - reflexivity.
  - vm_compute. discriminate.
Qed.

(** C7, as the code has it.  [_add_entry] looks for the ['name'] first and
    for the identifier second: with an identifier that is in the store,
    [add_entry] raises the missing-name [KeyError] when the entry has no
    ['name'], and the duplicate [KeyError] when it has one. *)
Theorem add_entry_name_check_precedes_duplicate_check s id e :
  id ∈ DataMap.iter s →
  (DataMap.add_entry s id e).2
  = if contains "name" e then Raise DuplicateKey else Raise MissingField.
Proof.
  intros Hin. unfold DataMap.add_entry.
  set (s1 := if (_ <? _)%Z then _ else _).
  assert (id ∈ DataMap.iter s1) as Hin1.
  { subst s1. by destruct (_ <? _)%Z. }
  destruct (contains "name" e) eqn:He.
  - by rewrite _add_entry_duplicate.
  - by rewrite _add_entry_missing_name.
Qed.

Lemma add_entry_name_check_precedes_duplicate_check_witness :
  (DataMap.add_entry (DataMap.insert DataMap.empty (named "A")).1 1
     [("rarity", VInt 3)]).2 = Raise MissingField.
Proof.
  apply (add_entry_name_check_precedes_duplicate_check
           (DataMap.insert DataMap.empty (named "A")).1 1 [("rarity", VInt 3)]).
  compute_done.
Defined.

(** C7 as documented fails: identifier 1 is in the store, the entry has no
    ['name'], and the call raises the missing-name [KeyError]. *)
Lemma add_entry_nameless_duplicate_raises_MissingField :
  let s := (DataMap.insert DataMap.empty (named "A")).1 in
  1%Z ∈ DataMap.iter s ∧
  contains "name" [("rarity", VInt 3)] = false ∧
  (DataMap.add_entry s 1 [("rarity", VInt 3)]).2 = Raise MissingField ∧
  (DataMap.add_entry s 1 [("rarity", VInt 3)]).2 ≠ Raise DuplicateKey.
Proof.
  intros s. split_and!.
  - compute_done.
  - reflexivity.
  - reflexivity.
  - vm_compute. discriminate.
Qed.

(** ** Lookup by name *)

Lemma exec_fresh s c nms :
  get "name" (payload c) = Some (VDict nms) →
  target s c ∉ DataMap.iter s →
  ∃ g l,
    exec s c
    = (DataMap.mk
         (DataMap._data s
          ++ [(target s c, DataRow.mk (target s c) (payload c))])
         (DataMap.index_names (target s c) nms (DataMap._reverse_entries s))
         g l,
       Ok (DataRow.mk (target s c) (payload c))).
Proof.
  intros Hn Hid. destruct (exec_add_entry s c) as (g & l & ->).
  exists g, l. by rewrite (_add_entry_fresh _ _ _ nms).
Qed.

Lemma get_snoc_new {V : Type} (k : Z) (v : V) (d : list (Z * V)) :
  k ∉ keys d → get k (d ++ [(k, v)]) = Some v.
Proof. intros Hk. by apply get_middle. Qed.

Lemma get_snoc_old {V : Type} (k k' : Z) (v v' : V) (d : list (Z * V)) :
  get k d = Some v → get k (d ++ [(k', v')]) = Some v.
Proof.
  induction d as [|[k0 v0] d IH]; simpl; [done|].
  destruct (decide (k = k0)); [done | apply IH].
Qed.

(** C3.  When [insert] or [add_entry] returns a row, the entry given has a
    ['name'] mapping, the row carries it unchanged, and these are the row's
    name translations; right after the call [entry_of] gives that very row
    and [id_of] its identifier, for each (language, name) pair of that
    mapping. *)
Theorem fresh_row_found_by_each_of_its_names s c s' r :
  exec s c = (s', Ok r) →
  ∃ nms, get "name" (payload c) = Some (VDict nms) ∧
         DataRow.getitem r "name" = Ok (VDict nms) ∧
         DataRow.names r = Ok nms ∧
         ∀ lang nm, (lang, nm) ∈ nms →
           DataMap.entry_of s' lang nm = Some r ∧
           DataMap.id_of s' lang nm = Some (DataRow.id r).
Proof.
  intros Hex. apply exec_Ok in Hex as (nms & Hn & Hid & -> & Hd & Hrev).
  exists nms. split_and!.
  - done.
  - unfold DataRow.getitem. simpl. by rewrite Hn.
  - unfold DataRow.names, DataRow.getitem. simpl. by rewrite Hn.
  - intros lang nm Hin.
    assert (DataMap.id_of s' lang nm = Some (target s c)) as Hidof.
    { unfold DataMap.id_of. rewrite Hrev. by apply index_names_elem. }
    split; [|done]. unfold DataMap.entry_of. rewrite Hidof, Hd.
    by apply get_snoc_new.
Qed.

Lemma fresh_row_found_by_each_of_its_names_witness :
  let s' := (exec DataMap.empty (Insert (named "Fire"))).1 in
  DataMap.entry_of s' "en" "Fire" = Some (DataRow.mk 1 (named "Fire")) ∧
  DataMap.id_of s' "en" "Fire" = Some 1%Z.
Proof.
  intros s'.
  destruct (fresh_row_found_by_each_of_its_names DataMap.empty
              (Insert (named "Fire")) s' (DataRow.mk 1 (named "Fire")))
    as (nms & Hn & _ & _ & Hall).
  - reflexivity.
  - injection Hn as <-. apply Hall. apply elem_of_cons. by left.
Defined.

(** C10.  A call with a free identifier and an entry one of whose
    (language, name) pairs the reverse index already maps to a row of the
    store returns the new row without raising; afterwards [id_of] and
    [entry_of] give the new identifier and row for that pair, no longer the
    old identifier, and the old row is still in the store under its own. *)
Theorem reverse_index_overwritten_by_later_row s c nms lang nm old r_old :
  get "name" (payload c) = Some (VDict nms) →
  (lang, nm) ∈ nms →
  target s c ∉ DataMap.iter s →
  DataMap.id_of s lang nm = Some old →
  get old (DataMap._data s) = Some r_old →
  (exec s c).2 = Ok (DataRow.mk (target s c) (payload c)) ∧
  DataMap.id_of (exec s c).1 lang nm = Some (target s c) ∧
  DataMap.id_of (exec s c).1 lang nm ≠ Some old ∧
  DataMap.entry_of (exec s c).1 lang nm
  = Some (DataRow.mk (target s c) (payload c)) ∧
  DataMap.getitem (exec s c).1 old = Ok r_old.
Proof.
  intros Hn Hin Hid Hold Hrow.
  destruct (exec_fresh s c nms Hn Hid) as (g & l & ->). simpl.
  assert (target s c ≠ old) as Hne.
  { intros Heq. apply Hid. unfold DataMap.iter. rewrite Heq.
    apply contains_keys. unfold contains. by rewrite Hrow. }
  unfold DataMap.id_of, DataMap.entry_of, DataMap.id_of, DataMap.getitem. simpl.
  rewrite index_names_elem by done. split_and!.
  - done.
  - done.
  - congruence.
  - by apply get_snoc_new.
  - by rewrite (get_snoc_old _ _ r_old).
Qed.

Lemma reverse_index_overwritten_by_later_row_witness :
  let s := (DataMap.insert DataMap.empty (named "Fire")).1 in
  let c := AddEntry 7 (named "Fire") in
  (exec s c).2 = Ok (DataRow.mk 7 (named "Fire")) ∧
  DataMap.id_of (exec s c).1 "en" "Fire" = Some 7%Z ∧
  DataMap.id_of (exec s c).1 "en" "Fire" ≠ Some 1%Z ∧
  DataMap.entry_of (exec s c).1 "en" "Fire" = Some (DataRow.mk 7 (named "Fire")) ∧
  DataMap.getitem (exec s c).1 1 = Ok (DataRow.mk 1 (named "Fire")).
Proof.
  intros s c.
  apply (reverse_index_overwritten_by_later_row s c [("en", "Fire")]
           "en" "Fire" 1 (DataRow.mk 1 (named "Fire"))).
  - reflexivity.
  - compute_done.
  - compute_done.
  - reflexivity.
  - reflexivity.
Defined.

(** ** Iteration order *)

(** C8.  The rows of a store after any sequence of calls are the rows it had
    before, followed by the rows the calls returned, in the order of the
    calls, each under its own identifier; so iterating the store gives the
    identifiers in the order they were added, whatever their values: 5 and
    then 2 iterate as 5, 2. *)
Theorem store_iterates_in_insertion_order :
  (∀ s cs,
     DataMap._data (run s cs).1
     = DataMap._data s ++ ((λ r, (DataRow.id r, r)) <$> added (run s cs).2)
     ∧ DataMap.iter (run s cs).1
       = DataMap.iter s ++ (DataRow.id <$> added (run s cs).2))
  ∧ DataMap.iter (run DataMap.empty
                    [AddEntry 5 (named "A"); AddEntry 2 (named "B")]).1
    = [5; 2]%Z.
Proof.
  split; [|reflexivity].
  assert (∀ s cs,
     DataMap._data (run s cs).1
     = DataMap._data s ++ ((λ r, (DataRow.id r, r)) <$> added (run s cs).2))
    as Hdata.
  { intros s cs. revert s. induction cs as [|c cs IH]; intros s; simpl.
    - by rewrite app_nil_r.
    - destruct (exec s c) as [s1 [r|x]] eqn:E.
      + specialize (IH s1). destruct (run s1 cs) as [s2 rs]. simpl in *.
        apply exec_Ok in E as (nms & _ & _ & Hr & Hd & _).
        rewrite IH, Hd, <- app_assoc. simpl. by rewrite Hr at 2.
      + specialize (IH s1). destruct (run s1 cs) as [s2 rs]. simpl in *.
        apply exec_Raise in E as [Hd _]. by rewrite IH, Hd. }
  intros s cs. split; [apply Hdata|].
  unfold DataMap.iter. rewrite Hdata, keys_app. f_equal.
  unfold keys. rewrite <- list_fmap_compose. done.
Qed.

(** ** Names in one language *)

(** C9.  Let the rows of a store be [pre] followed by [rest], every row of
    [pre] having a name in language [L].  Then the calls of [next()] on
    [names(L)] yield these names one by one in the order of the rows.  If
    [rest] is empty the generator then stops, and if [rest] begins with a
    row whose ['name'] has no entry for [L] the next call raises
    [KeyError]: the iteration has produced the names of [pre] and ends
    with the exception, the row being neither skipped nor followed.  (No
    two rows of a store share an identifier.) *)
Theorem names_yield_in_order_until_language_missing s L pre rest ns :
  NoDup (DataMap.iter s) →
  DataMap._data s = pre ++ rest →
  Forall2 (λ kr n, DataRow.name kr.2 L = Ok n) pre ns →
  (∀ i n, ns !! i = Some n →
     NameSet.next s L (drop i (NameSet.start s))
     = NameSet.Yield n (drop (S i) (NameSet.start s)))
  ∧ (rest = [] →
     NameSet.next s L (drop (length ns) (NameSet.start s))
     = NameSet.StopIteration
     ∧ NameSet.iter s L = (ns, None))
  ∧ (∀ k r m post,
       rest = (k, r) :: post →
       DataRow.getitem r "name" = Ok (VDict m) → get L m = None →
       NameSet.next s L (drop (length ns) (NameSet.start s))
       = NameSet.Throw (KeyError L)
       ∧ NameSet.iter s L = (ns, Some (KeyError L))).
Proof.
  intros Hnd Hd Hnames.
  assert (∀ k r, (k, r) ∈ pre → DataMap.getitem s k = Ok r) as Hget.
  { intros k r Hin. apply getitem_row; [done|].
    rewrite Hd. apply elem_of_app. by left. }
  assert (NameSet.start s = keys pre ++ keys rest) as Hstart.
  { unfold NameSet.start, DataMap.iter. by rewrite Hd, keys_app. }
  assert (length ns = length (keys pre)) as Hlen.
  { unfold keys. rewrite length_fmap. symmetry. by eapply Forall2_length. }
  unfold NameSet.iter. rewrite Hstart. split_and!.
  - intros i n Hi. by eapply next_named.
  - intros ->. simpl. rewrite Hlen, drop_app_length.
    split; [done|]. rewrite (drain_named_prefix s L pre ns) by done.
    simpl. by rewrite app_nil_r.
  - intros k r m post -> Hname HL.
    assert (DataMap.getitem s k = Ok r) as Hk.
    { apply getitem_row; [done|]. rewrite Hd. apply elem_of_app. right.
      apply elem_of_cons. by left. }
    assert (DataRow.name r L = Raise (KeyError L)) as Hr.
    { unfold DataRow.name. by rewrite Hname, HL. }
    rewrite Hlen, drop_app_length.
    rewrite (drain_named_prefix s L pre ns) by done.
    simpl. rewrite Hk, Hr. simpl. by rewrite app_nil_r.
Qed.

Lemma names_yield_in_order_until_language_missing_witness :
  let s := (run DataMap.empty
              [Insert (named "Fire");
               Insert [("name", VDict [("ja", "Koori")])];
               Insert (named "Water")]).1 in
  NameSet.next s "en" (NameSet.start s) = NameSet.Yield "Fire" [2; 3]%Z ∧
  NameSet.next s "en" [2; 3]%Z = NameSet.Throw (KeyError "en") ∧
  NameSet.iter s "en" = (["Fire"], Some (KeyError "en")).
Proof.
  intros s.
  destruct (names_yield_in_order_until_language_missing s "en"
              [(1%Z, DataRow.mk 1 (named "Fire"))]
              [(2%Z, DataRow.mk 2 [("name", VDict [("ja", "Koori")])]);
               (3%Z, DataRow.mk 3 (named "Water"))]
              ["Fire"]) as (Hyield & _ & Hthrow).
  - compute_done.
  - reflexivity.
  - repeat constructor.
  - destruct (Hthrow 2%Z (DataRow.mk 2 [("name", VDict [("ja", "Koori")])])
                [("ja", "Koori")] [(3%Z, DataRow.mk 3 (named "Water"))])
      as [Hnext Hiter]; [reflexivity..|].
    split_and!.
    + exact (Hyield 0 "Fire" eq_refl).
    + exact Hnext.
    + exact Hiter.
Defined.

(** A rejected duplicate can still move the generator: after two inserts,
    [add_entry(1, ...)] raises the duplicate [KeyError], with the rows and
    the reverse index untouched, the generator back from 3 to 2 and
    [_last_id] up from 0 to 1. *)
Lemma add_entry_duplicate_moves_generator :
  let s := (run DataMap.empty [Insert (named "A"); Insert (named "B")]).1 in
  let out := DataMap.add_entry s 1 (named "C") in
  out.2 = Raise DuplicateKey ∧
  DataMap._data out.1 = DataMap._data s ∧
  DataMap._reverse_entries out.1 = DataMap._reverse_entries s ∧
  (DataMap._id_gen s, DataMap._last_id s) = (3, 0)%Z ∧
  (DataMap._id_gen out.1, DataMap._last_id out.1) = (2, 1)%Z.
Proof. vm_compute. by split_and!. Qed.

(** * Further properties of the code *)

(** ** Rows as dictionaries *)

Section row_facts.
Implicit Types (self : DataRow.t) (d : list (string * value)).

Lemma keys_set {K V : Type} `{EqDecision K} (k : K) (v : V) (l : list (K * V)) :
  keys (set k v l) = if decide (k ∈ keys l) then keys l else keys l ++ [k].
Proof.
  destruct (decide (k ∈ keys l)) as [Hin|Hout].
  - by apply keys_set_present.
  - rewrite set_fresh by done. by rewrite keys_app.
Qed.

Lemma NoDup_keys_set {K V : Type} `{EqDecision K} (k : K) (v : V) (l : list (K * V)) :
  NoDup (keys l) → NoDup (keys (set k v l)).
Proof.
  intros Hnd. rewrite keys_set. destruct (decide (k ∈ keys l)) as [Hin|Hout]; [done|].
  apply NoDup_app. split_and!; [done | | apply NoDup_singleton].
  intros x Hx Hx'. apply list_elem_of_singleton in Hx'. by subst x.
Qed.

Lemma get_Permutation {K V : Type} `{EqDecision K} (k : K) (l l' : list (K * V)) :
  NoDup (keys l) → l ≡ₚ l' → get k l = get k l'.
Proof.
  intros Hnd Hp.
  assert (keys l ≡ₚ keys l') as Hk by (unfold keys; by rewrite Hp).
  destruct (get k l) as [v|] eqn:E.
  - symmetry. apply get_NoDup; [by rewrite <- Hk|].
    rewrite <- Hp. by apply get_elem_of.
  - symmetry. apply get_None_keys. rewrite <- Hk. by apply get_None_keys.
Qed.

Lemma scan_suffix after (ks : list string) :
  ∃ k1, ks = k1 ++ (DataRow.scan after ks).2.
Proof.
  destruct (decide (after ∈ ks)) as [Hin|Hout].
  - apply list_elem_of_split_l in Hin as (pre & post & -> & Hpre).
    rewrite scan_split by done. exists (pre ++ [after]).
    by rewrite <- app_assoc.
  - rewrite scan_absent by done. exists ks. by rewrite app_nil_r.
Qed.

Lemma move_to_end_keys d k1 kmv k2 :
  NoDup (keys d) → keys d = k1 ++ kmv ++ k2 →
  ∃ l1 mv l2,
    d = l1 ++ mv ++ l2 ∧ keys l1 = k1 ∧ keys mv = kmv ∧ keys l2 = k2 ∧
    DataRow.move_to_end kmv d = (l1 ++ l2 ++ mv, Ok ()).
Proof.
  intros Hnd Hk. unfold keys in Hk.
  apply fmap_app_inv in Hk as (l1 & l' & -> & Hk & ->).
  symmetry in Hk. apply fmap_app_inv in Hk as (mv & l2 & -> & -> & ->).
  exists l1, mv, l2. split_and!; try done.
  by apply move_to_end_block.
Qed.

(** What [set_value] does in every case: the row after [self[key] = value]
    is cut in three, and the middle part goes to the end. *)
Lemma set_value_shape self key v after :
  NoDup (DataRow.iter self) →
  ∃ l1 mv l2,
    set key v (DataRow._data self) = l1 ++ mv ++ l2 ∧
    (key ∈ DataRow.iter self → l2 = []) ∧
    DataRow.set_value self key v after
    = (DataRow.mk (DataRow._id self) (l1 ++ l2 ++ mv), Ok ()).
Proof.
  intros Hnd. unfold DataRow.set_value, DataRow.iter in *.
  destruct (decide (after = "")) as [->|Hne].
  { exists (set key v (DataRow._data self)), [], []. simpl.
    rewrite !app_nil_r. done. }
  destruct (scan_suffix after (keys (DataRow._data self))) as (k1 & Hk1).
  set (kmv := (DataRow.scan after (keys (DataRow._data self))).2) in *.
  destruct (move_to_end_keys (set key v (DataRow._data self)) k1 kmv
              (if decide (key ∈ keys (DataRow._data self)) then [] else [key]))
    as (l1 & mv & l2 & Hd & _ & _ & Hl2 & Hmv).
  { by apply NoDup_keys_set. }
  { rewrite keys_set. destruct (decide _).
    - by rewrite app_nil_r.
    - by rewrite Hk1 at 1; rewrite <- app_assoc. }
  exists l1, mv, l2. split_and!.
  - done.
  - intros Hin. rewrite decide_True in Hl2 by done.
    by destruct l2.
  - simpl. by rewrite Hmv.
Qed.

(** X1.  On a row (a dictionary, so without two equal keys) [set_value]
    never raises, whatever the key and the anchor; it keeps the row's
    identifier, the fields after the call are those of [self[key] = value]
    up to their order, [key] reads back as the value given, and every other
    field reads as before. *)
Theorem set_value_keeps_every_field self key v after :
  NoDup (DataRow.iter self) →
  (DataRow.set_value self key v after).2 = Ok () ∧
  DataRow._id (DataRow.set_value self key v after).1 = DataRow._id self ∧
  DataRow._data (DataRow.set_value self key v after).1
  ≡ₚ DataRow._data (DataRow.setitem self key v) ∧
  DataRow.getitem (DataRow.set_value self key v after).1 key = Ok v ∧
  ∀ k, k ≠ key →
    DataRow.getitem (DataRow.set_value self key v after).1 k
    = DataRow.getitem self k.
Proof.
  intros Hnd.
  destruct (set_value_shape self key v after Hnd) as (l1 & mv & l2 & Hd & _ & ->).
  simpl.
  assert (l1 ++ l2 ++ mv ≡ₚ set key v (DataRow._data self)) as Hp.
  { rewrite Hd. solve_Permutation. }
  assert (∀ k, get k (l1 ++ l2 ++ mv) = get k (set key v (DataRow._data self)))
    as Hget.
  { intros k. symmetry. apply get_Permutation; [|done].
    by apply NoDup_keys_set. }
  unfold DataRow.getitem. simpl. split_and!; try done.
  - by rewrite Hget, get_set_eq.
  - intros k Hk. by rewrite Hget, get_set_ne.
Qed.

Lemma set_value_keeps_every_field_witness :
  (DataRow.set_value abcd "a" (VInt 9) "c").2 = Ok () ∧
  DataRow.getitem (DataRow.set_value abcd "a" (VInt 9) "c").1 "a" = Ok (VInt 9).
Proof.
  destruct (set_value_keeps_every_field abcd "a" (VInt 9) "c")
    as (Hr & _ & _ & Hg & _).
  - compute_done.
  - by split.
Defined.

(** X2.  On a row, [set_value] with a key the row already has is
    [self[key] = value] for every anchor: the value is overwritten and no
    field changes place. *)
Theorem set_value_present_key_is_assignment self key v after :
  NoDup (DataRow.iter self) → key ∈ DataRow.iter self →
  DataRow.set_value self key v after = (DataRow.setitem self key v, Ok ()) ∧
  DataRow.iter (DataRow.setitem self key v) = DataRow.iter self.
Proof.
  intros Hnd Hin.
  destruct (set_value_shape self key v after Hnd) as (l1 & mv & l2 & Hd & Hl2 & ->).
  rewrite (Hl2 Hin) in *. split.
  - unfold DataRow.setitem. rewrite Hd. simpl. by rewrite app_nil_r.
  - unfold DataRow.iter. simpl. by apply keys_set_present.
Qed.

Lemma set_value_present_key_is_assignment_witness :
  DataRow.set_value abcd "d" (VInt 9) "a"
  = (DataRow.mk 0 [("a", VInt 1); ("b", VInt 2); ("c", VInt 3); ("d", VInt 9)],
     Ok ()).
Proof.
  destruct (set_value_present_key_is_assignment abcd "d" (VInt 9) "a") as [H _].
  - compute_done.
  - compute_done.
  - exact H.
Defined.

(** X3.  Field access on a row: after [self[key] = value] the key reads back
    as that value, every other key reads as before, and the row has one
    field more when the key is new and as many as before when it is not. *)
Theorem setitem_getitem self key v :
  DataRow.getitem (DataRow.setitem self key v) key = Ok v ∧
  (∀ k, k ≠ key →
     DataRow.getitem (DataRow.setitem self key v) k = DataRow.getitem self k) ∧
  DataRow.len (DataRow.setitem self key v)
  = if decide (key ∈ DataRow.iter self)
    then DataRow.len self else S (DataRow.len self).
Proof.
  unfold DataRow.getitem, DataRow.len, DataRow.iter. simpl. split_and!.
  - by rewrite get_set_eq.
  - intros k Hk. by rewrite get_set_ne.
  - assert (∀ l : list (string * value), length l = length (keys l)) as Hlen.
    { intros l. unfold keys. by rewrite length_fmap. }
    rewrite !Hlen, keys_set. destruct (decide _); [done|].
    rewrite length_app. simpl. lia.
Qed.

Lemma filter_ne_absent (k : string) (l : list string) :
  k ∉ l → filter (λ x, x ≠ k) l = l.
Proof.
  induction l as [|x l IH]; [done|].
  rewrite not_elem_of_cons. intros [Hne Hl].
  rewrite filter_cons_True by done. by rewrite IH.
Qed.

(** X4.  [del self[key]]: on a key the row does not have it raises
    [KeyError] and leaves the row as it was; on a key it has it removes that
    field and no other: the key then raises [KeyError] on access, every
    other key reads as before, and the remaining fields keep their order. *)
Theorem delitem_removes_one_field self key :
  NoDup (DataRow.iter self) →
  (key ∉ DataRow.iter self →
   DataRow.delitem self key = (self, Raise (KeyError key)))
  ∧ (key ∈ DataRow.iter self →
     (DataRow.delitem self key).2 = Ok () ∧
     DataRow.getitem (DataRow.delitem self key).1 key = Raise (KeyError key) ∧
     (∀ k, k ≠ key →
        DataRow.getitem (DataRow.delitem self key).1 k = DataRow.getitem self k) ∧
     DataRow.iter (DataRow.delitem self key).1
     = filter (λ k, k ≠ key) (DataRow.iter self)).
Proof.
  intros Hnd. unfold DataRow.delitem, DataRow.iter in *. split.
  - intros Hout. by rewrite (proj2 (contains_false_keys _ _) Hout).
  - intros Hin. rewrite (proj2 (contains_keys _ _) Hin). simpl.
    destruct self as [id d]. simpl in *. unfold DataRow.getitem. simpl.
    clear Hin. induction d as [|[k0 v0] d IH]; simpl.
    + by split_and!.
    + rewrite keys_cons in Hnd. apply NoDup_cons in Hnd as [Hk0 Hnd].
      destruct (IH Hnd) as (_ & Hgone & Hother & Hkeys).
      destruct (decide (key = k0)) as [->|Hne].
      * rewrite filter_cons_False by (intros ?; done). split_and!.
        -- done.
        -- by rewrite (proj2 (get_None_keys k0 d) Hk0).
        -- intros k Hk. by rewrite decide_False.
        -- by rewrite filter_ne_absent.
      * rewrite filter_cons_True by done. simpl.
        rewrite decide_False by done. split_and!.
        -- done.
        -- exact Hgone.
        -- intros k Hk. destruct (decide (k = k0)); [done|]. by apply Hother.
        -- by rewrite Hkeys.
Qed.

Lemma delitem_removes_one_field_witness :
  DataRow.delitem abcd "z" = (abcd, Raise (KeyError "z")).
Proof.
  apply (delitem_removes_one_field abcd "z"); compute_done.
Defined.

(** X5.  [name] and [names] read the same ['name'] field: a name that
    [name(lang)] returns is among the pairs of [names()]; with no language
    listed twice, every pair of [names()] is what [name] returns for its
    language; and a language that [names()] does not list makes [name]
    raise [KeyError]. *)
Theorem name_agrees_with_names self :
  (∀ L n, DataRow.name self L = Ok n →
     ∃ nms, DataRow.names self = Ok nms ∧ (L, n) ∈ nms)
  ∧ (∀ nms, DataRow.names self = Ok nms →
       (∀ L n, NoDup (keys nms) → (L, n) ∈ nms → DataRow.name self L = Ok n)
       ∧ (∀ L, L ∉ keys nms → DataRow.name self L = Raise (KeyError L))).
Proof.
  unfold DataRow.name, DataRow.names.
  destruct (DataRow.getitem self "name") as [[?|?|m]|x]; split; try done.
  - intros L n. destruct (get L m) as [n'|] eqn:E; [|done].
    intros [= ->]. exists m. split; [done | by apply get_elem_of].
  - intros nms [= <-]. split.
    + intros L n Hnd Hin. by rewrite (get_NoDup L n m).
    + intros L HL. by rewrite (proj2 (get_None_keys L m) HL).
Qed.

Lemma name_agrees_with_names_witness :
  DataRow.name (DataRow.mk 1 (named "Fire")) "ja" = Raise (KeyError "ja").
Proof.
  apply (proj2 (name_agrees_with_names (DataRow.mk 1 (named "Fire")))
           [("en", "Fire")] eq_refl).
  compute_done.
Defined.
End row_facts.

(** ** Rows and reverse index of a store *)

Section store_facts.
Implicit Types (s : DataMap.t) (c : call).

Lemma index_names_is_Some (id : Z) (nms : list (string * string))
    (rev : gmap (string * string) Z) (key : string * string) :
  is_Some (rev !! key) → is_Some (DataMap.index_names id nms rev !! key).
Proof.
  intros Hsome. destruct key as [lang nm].
  destruct (decide ((lang, nm) ∈ nms)).
  - rewrite index_names_elem by done. eauto.
  - by rewrite index_names_other.
Qed.

Lemma exec_consistent s c : consistent s → consistent (exec s c).1.
Proof.
  intros (Hnd & Hrows & Hrev).
  destruct (exec s c) as [s' [r|x]] eqn:E; simpl.
  - pose proof (exec_NoDup s c Hnd) as Hnd'. rewrite E in Hnd'. simpl in Hnd'.
    apply exec_Ok in E as (nms0 & Hn & Hid & Hr & Hd & Hidx).
    assert (DataRow.names r = Ok nms0) as Hnames.
    { rewrite Hr. unfold DataRow.names, DataRow.getitem. simpl. by rewrite Hn. }
    split_and!; [done| |].
    + intros k r' Hin. rewrite Hd in Hin.
      apply elem_of_app in Hin as [Hin|Hin].
      * destruct (Hrows k r' Hin) as (Hk & nms & Hnms & Hall).
        split; [done|]. exists nms. split; [done|].
        intros lang nm Hp. unfold DataMap.id_of. rewrite Hidx.
        apply index_names_is_Some. by apply Hall.
      * apply list_elem_of_singleton in Hin as [= -> ->].
        split; [by rewrite Hr|]. exists nms0. split; [done|].
        intros lang nm Hp. unfold DataMap.id_of. rewrite Hidx.
        rewrite index_names_elem by done. eauto.
    + intros lang nm id. unfold DataMap.id_of. rewrite Hidx, Hd.
      destruct (decide ((lang, nm) ∈ nms0)) as [Hp|Hp].
      * rewrite index_names_elem by done. intros [= <-].
        exists r, nms0. split_and!; [|done..].
        apply elem_of_app. right. by apply list_elem_of_singleton.
      * rewrite index_names_other by done. intros Hold.
        destruct (Hrev lang nm id Hold) as (r0 & nms & Hin & Hnms & Hpair).
        exists r0, nms. split_and!; [|done..]. apply elem_of_app. by left.
  - apply exec_Raise in E as [Hd Hidx]. unfold consistent, DataMap.iter, DataMap.id_of.
    rewrite Hd, Hidx. by split_and!.
Qed.

Lemma reachable_consistent s : reachable s → consistent s.
Proof.
  intros [cs <-]. apply run_invariant; [apply exec_consistent|].
  split_and!.
  - apply NoDup_nil_2.
  - intros k r Hin. by apply elem_of_nil in Hin.
  - intros lang nm id. unfold DataMap.id_of. simpl. by rewrite lookup_empty.
Qed.

Lemma names_Ok_len r nms : DataRow.names r = Ok nms → DataRow.len r ≠ 0.
Proof.
  unfold DataRow.names, DataRow.getitem, DataRow.len.
  destruct (DataRow._data r); [done|]. simpl. lia.
Qed.

(** X6.  In every store that calls of [insert] and [add_entry] have built
    from [DataMap()], rejected calls included, no two rows share an
    identifier, the generator is above [_last_id], and every row is stored
    under its own identifier, is what [self[id]] returns for it, and has
    name translations. *)
Theorem reachable_rows_well_formed s :
  reachable s →
  NoDup (DataMap.iter s) ∧
  (DataMap._last_id s < DataMap._id_gen s)%Z ∧
  ∀ k r, (k, r) ∈ DataMap._data s →
    DataRow.id r = k ∧ DataMap.getitem s k = Ok r ∧
    ∃ nms, DataRow.names r = Ok nms.
Proof.
  intros Hs. destruct (reachable_consistent s Hs) as (Hnd & Hrows & _).
  split_and!; [done | by apply reachable_gen_above_last_id |].
  intros k r Hin. destruct (Hrows k r Hin) as (Hk & nms & Hnms & _).
  split_and!; [done | by apply getitem_row | by exists nms].
Qed.

Lemma reachable_rows_well_formed_witness :
  let s := (run DataMap.empty
              [Insert (named "Fire"); AddEntry 7 (named "Ice");
               Insert []; AddEntry 7 (named "Fire")]).1 in
  NoDup (DataMap.iter s) ∧ (DataMap._last_id s < DataMap._id_gen s)%Z.
Proof.
  intros s. destruct (reachable_rows_well_formed s) as (Hnd & Hlt & _).
  - by eexists.
  - by split.
Defined.

(** X7.  In such a store the reverse index and the rows agree: whenever
    [id_of] gives an identifier for a (language, name) pair, [entry_of]
    gives a row with that identifier whose name translations contain the
    pair; and every (language, name) pair of every row of the store is found
    by [entry_of]. *)
Theorem reverse_index_agrees_with_rows s :
  reachable s →
  (∀ lang nm id, DataMap.id_of s lang nm = Some id →
     ∃ r nms, DataMap.entry_of s lang nm = Some r ∧ DataRow.id r = id ∧
              DataRow.names r = Ok nms ∧ (lang, nm) ∈ nms)
  ∧ (∀ k r nms lang nm,
       (k, r) ∈ DataMap._data s → DataRow.names r = Ok nms → (lang, nm) ∈ nms →
       is_Some (DataMap.entry_of s lang nm)).
Proof.
  intros Hs. destruct (reachable_consistent s Hs) as (Hnd & Hrows & Hrev).
  assert (∀ lang nm id, DataMap.id_of s lang nm = Some id →
     ∃ r nms, DataMap.entry_of s lang nm = Some r ∧ DataRow.id r = id ∧
              DataRow.names r = Ok nms ∧ (lang, nm) ∈ nms) as Hsound.
  { intros lang nm id Hid.
    destruct (Hrev lang nm id Hid) as (r & nms & Hin & Hnms & Hp).
    exists r, nms. split_and!; [|by apply (Hrows id r)|done..].
    unfold DataMap.entry_of. rewrite Hid. by apply get_NoDup. }
  split; [done|].
  intros k r nms lang nm Hin Hnms Hp.
  destruct (Hrows k r Hin) as (_ & nms' & Hnms' & Hall).
  assert (nms' = nms) as -> by congruence.
  destruct (Hall lang nm Hp) as [id Hid].
  destruct (Hsound lang nm id Hid) as (r' & _ & -> & _). eauto.
Qed.

Lemma reverse_index_agrees_with_rows_witness :
  let s := (run DataMap.empty
              [Insert (named "Fire"); AddEntry 7 (named "Fire")]).1 in
  is_Some (DataMap.entry_of s "en" "Fire").
Proof.
  intros s.
  apply (proj2 (reverse_index_agrees_with_rows s ltac:(by eexists))
           1%Z (DataRow.mk 1 (named "Fire")) [("en", "Fire")] "en" "Fire").
  - vm_compute. constructor.
  - reflexivity.
  - compute_done.
Defined.

(** X8.  In such a store, [name in names(L)] is true exactly when some row
    of the store has the name [name] in language [L]. *)
Theorem nameset_contains_iff_some_row_named s L key :
  reachable s →
  NameSet.contains s L key = true
  ↔ ∃ k r nms, (k, r) ∈ DataMap._data s ∧
               DataRow.names r = Ok nms ∧ (L, key) ∈ nms.
Proof.
  intros Hs. destruct (reachable_consistent s Hs) as (Hnd & Hrows & Hrev).
  unfold NameSet.contains, DataMap.entry_of. split.
  - destruct (DataMap.id_of s L key) as [id|] eqn:Hid; [|done].
    intros _. destruct (Hrev L key id Hid) as (r & nms & Hin & Hnms & Hp).
    by exists id, r, nms.
  - intros (k & r & nms & Hin & Hnms & Hp).
    destruct (Hrows k r Hin) as (_ & nms' & Hnms' & Hall).
    assert (nms' = nms) as -> by congruence.
    destruct (Hall L key Hp) as [id Hid]. rewrite Hid.
    destruct (Hrev L key id Hid) as (r' & nms' & Hin' & Hnms'' & _).
    rewrite (get_NoDup id r' (DataMap._data s)) by done.
    apply names_Ok_len in Hnms''.
    by destruct (DataRow.len r').
Qed.

Lemma nameset_contains_iff_some_row_named_witness :
  let s := (run DataMap.empty
              [Insert (named "Fire"); Insert (named "Ice")]).1 in
  NameSet.contains s "en" "Ice" = true ∧
  ¬ ∃ k r nms, (k, r) ∈ DataMap._data s ∧
               DataRow.names r = Ok nms ∧ ("en", "Water") ∈ nms.
Proof.
  intros s.
  pose proof (nameset_contains_iff_some_row_named s "en" "Ice"
                ltac:(by eexists)) as Hice.
  pose proof (nameset_contains_iff_some_row_named s "en" "Water"
                ltac:(by eexists)) as Hwater.
  split.
  - apply Hice. exists 2%Z, (DataRow.mk 2 (named "Ice")), [("en", "Ice")].
    split_and!; [vm_compute; repeat constructor | reflexivity | compute_done].
  - intros Hex. apply Hwater in Hex. vm_compute in Hex. discriminate.
Defined.

(** X9.  [insert] and [add_entry] return a row exactly when the entry has a
    ['name'] that is a mapping and the identifier ([next] of the generator
    for [insert]) is not in the store; the row returned then has that
    identifier and the entry as its fields. *)
Theorem exec_returns_row_iff s c r :
  (exec s c).2 = Ok r
  ↔ (∃ nms, get "name" (payload c) = Some (VDict nms)) ∧
    (target s c ∉ DataMap.iter s) ∧
    r = DataRow.mk (target s c) (payload c).
Proof.
  split.
  - destruct (exec s c) as [s' res] eqn:E. simpl. intros ->.
    apply exec_Ok in E as (nms & Hn & Hid & Hr & _). eauto.
  - intros ([nms Hn] & Hid & ->).
    by destruct (exec_fresh s c nms Hn Hid) as (g & l & ->).
Qed.

(** X10.  A call of [insert] or [add_entry] that raises leaves the rows and
    the reverse index as they were, and what it raises is decided in this
    order: the missing-name [KeyError] when the entry has no ['name'], else
    the duplicate [KeyError] when the identifier is in the store, else an
    [AttributeError] from a ['name'] that is not a mapping. *)
Theorem exec_raise_leaves_rows_and_index s c x :
  (exec s c).2 = Raise x →
  DataMap._data (exec s c).1 = DataMap._data s ∧
  DataMap._reverse_entries (exec s c).1 = DataMap._reverse_entries s ∧
  ((contains "name" (payload c) = false ∧ x = MissingField)
   ∨ (contains "name" (payload c) = true ∧ target s c ∈ DataMap.iter s ∧
      x = DuplicateKey)
   ∨ ((target s c ∉ DataMap.iter s) ∧
      ∃ v msg, get "name" (payload c) = Some v ∧ (∀ nms, v ≠ VDict nms) ∧
               x = AttributeError msg)).
Proof.
  intros Hx. destruct (exec s c) as [s' res] eqn:E. simpl in *. subst res.
  destruct (exec_Raise s c s' x E) as [Hd Hidx]. split_and!; [done..|].
  destruct (exec_add_entry s c) as (g & l & Hadd). rewrite Hadd in E.
  set (s0 := DataMap.mk _ _ g l) in *.
  destruct (contains "name" (payload c)) eqn:Hname.
  2:{ rewrite _add_entry_missing_name in E by done. left. split; congruence. }
  right. destruct (decide (target s c ∈ DataMap.iter s)) as [Hin|Hout].
  { rewrite _add_entry_duplicate in E by done. left. split_and!; congruence. }
  right. split; [done|].
  unfold DataMap._add_entry in E. rewrite Hname in E. simpl in E.
  rewrite (proj2 (contains_false_keys _ _) Hout) in E.
  unfold DataRow.names, DataRow.getitem in E. simpl in E.
  unfold contains in Hname.
  destruct (get "name" (payload c)) as [[str|n|nms]|]; simplify_eq; eauto.
Qed.

Lemma exec_raise_leaves_rows_and_index_witness :
  let s := (DataMap.insert DataMap.empty (named "Fire")).1 in
  DataMap._data (exec s (Insert [("name", VStr "Ice")])).1 = DataMap._data s ∧
  DataMap._reverse_entries (exec s (Insert [("name", VStr "Ice")])).1
  = DataMap._reverse_entries s.
Proof.
  intros s.
  destruct (exec_raise_leaves_rows_and_index s (Insert [("name", VStr "Ice")])
              (AttributeError "'str' object has no attribute 'items'"))
    as (Hd & Hi & _).
  - reflexivity.
  - by split.
Defined.

(** X11.  After a call that returns a row, [self[id]] gives that row, the
    store has one row more, each field of the row reads as in the entry
    given, every row that was in the store is still found under its
    identifier, and the reverse index is as before for every
    (language, name) pair that is not one of the new row's. *)
Theorem added_row_reads_back s c s' r :
  exec s c = (s', Ok r) →
  DataMap.getitem s' (DataRow.id r) = Ok r ∧
  DataMap.len s' = S (DataMap.len s) ∧
  (∀ key, DataRow.getitem r key
          = match get key (payload c) with
            | Some v => Ok v
            | None => Raise (KeyError key)
            end) ∧
  (∀ k r0, get k (DataMap._data s) = Some r0 → DataMap.getitem s' k = Ok r0) ∧
  (∀ lang nm, (∀ nms, DataRow.names r = Ok nms → (lang, nm) ∉ nms) →
     DataMap.id_of s' lang nm = DataMap.id_of s lang nm).
Proof.
  intros E. apply exec_Ok in E as (nms & Hn & Hid & Hr & Hd & Hidx).
  unfold DataMap.getitem, DataMap.len, DataMap.id_of. rewrite Hd, Hidx.
  split_and!.
  - rewrite Hr at 1. simpl. by rewrite get_snoc_new.
  - rewrite length_app. simpl. lia.
  - intros key. by rewrite Hr.
  - intros k r0 Hk. by rewrite (get_snoc_old _ _ r0).
  - intros lang nm Hout. apply index_names_other. apply Hout.
    rewrite Hr. unfold DataRow.names, DataRow.getitem. simpl. by rewrite Hn.
Qed.

Lemma added_row_reads_back_witness :
  let s := (DataMap.insert DataMap.empty (named "Fire")).1 in
  DataMap.getitem (DataMap.add_entry s 7 (named "Ice")).1 7
  = Ok (DataRow.mk 7 (named "Ice")).
Proof.
  intros s.
  destruct (added_row_reads_back s (AddEntry 7 (named "Ice"))
              (DataMap.add_entry s 7 (named "Ice")).1
              (DataRow.mk 7 (named "Ice"))) as (Hget & _).
  - reflexivity.
  - exact Hget.
Defined.
End store_facts.

(** ** The constructor *)

Section init_facts.
Implicit Types (s : DataMap.t) (data : list (Z * list (string * value))).

Lemma add_entry_fresh s id e nms :
  get "name" e = Some (VDict nms) → id ∉ DataMap.iter s →
  DataMap.add_entry s id e
  = (DataMap.mk (DataMap._data s ++ [(id, DataRow.mk id e)])
       (DataMap.index_names id nms (DataMap._reverse_entries s))
       (if (DataMap._last_id s <? id)%Z then id + 1 else DataMap._id_gen s)%Z
       (if (DataMap._last_id s <? id)%Z then id else DataMap._last_id s),
     Ok (DataRow.mk id e)).
Proof.
  intros Hn Hid. unfold DataMap.add_entry.
  destruct (DataMap._last_id s <? id)%Z; by rewrite (_add_entry_fresh _ _ _ nms).
Qed.

Lemma init_loop_named s0 data :
  NoDup (DataMap.iter s0 ++ keys data) →
  Forall (λ ke, ∃ nms, get "name" ke.2 = Some (VDict nms)) data →
  Forall (λ k, (k ≤ DataMap._last_id s0)%Z) (DataMap.iter s0) →
  DataMap._id_gen s0 = (DataMap._last_id s0 + 1)%Z →
  ∃ s, DataMap.init_loop s0 data = Ok s ∧
       DataMap._data s
       = DataMap._data s0 ++ ((λ ke, (ke.1, DataRow.mk ke.1 ke.2)) <$> data) ∧
       Forall (λ k, (k ≤ DataMap._last_id s)%Z) (DataMap.iter s) ∧
       DataMap._id_gen s = (DataMap._last_id s + 1)%Z ∧
       (DataMap._last_id s = DataMap._last_id s0 ∨ DataMap._last_id s ∈ keys data).
Proof.
  revert s0. induction data as [|[k e] data IH]; intros s0 Hnd Hnamed Hle Hgen; simpl.
  - exists s0. rewrite app_nil_r. split_and!; try done. by left.
  - apply Forall_cons in Hnamed as [[nms Hn] Hnamed]. simpl in Hn.
    rewrite keys_cons in Hnd.
    assert (k ∉ DataMap.iter s0) as Hk.
    { apply NoDup_app in Hnd as (_ & Hdisj & _). intros Hin.
      apply (Hdisj _ Hin). apply elem_of_cons. by left. }
    rewrite (add_entry_fresh s0 k e nms) by done.
    set (s1 := DataMap.mk _ _ _ _).
    destruct (IH s1) as (s & Hloop & Hd & Hle' & Hgen' & Hlast).
    + unfold DataMap.iter. subst s1. simpl. rewrite keys_app. simpl.
      by rewrite <- app_assoc.
    + done.
    + unfold DataMap.iter. subst s1. simpl. rewrite keys_app.
      apply Forall_app. split.
      * eapply Forall_impl; [exact Hle|]. simpl. intros x Hx.
        destruct (DataMap._last_id s0 <? k)%Z eqn:Hlt; [|done].
        apply Z.ltb_lt in Hlt. lia.
      * apply Forall_singleton. simpl.
        destruct (DataMap._last_id s0 <? k)%Z eqn:Hlt; [done|].
        apply Z.ltb_ge in Hlt. lia.
    + subst s1. simpl. by destruct (DataMap._last_id s0 <? k)%Z.
    + exists s. split_and!; try done.
      * rewrite Hd. subst s1. simpl. by rewrite <- app_assoc.
      * destruct Hlast as [Hlast|Hlast].
        -- subst s1. simpl in Hlast.
           destruct (DataMap._last_id s0 <? k)%Z.
           ++ right. rewrite Hlast. apply elem_of_cons. by left.
           ++ by left.
        -- right. apply elem_of_cons. by right.
Qed.

Lemma init_loop_Ok s0 data s :
  NoDup (DataMap.iter s0) →
  DataMap.init_loop s0 data = Ok s →
  NoDup (DataMap.iter s0 ++ keys data) ∧
  Forall (λ ke, ∃ nms, get "name" ke.2 = Some (VDict nms)) data.
Proof.
  revert s0. induction data as [|[k e] data IH]; intros s0 Hnd; simpl.
  - intros _. by rewrite app_nil_r.
  - destruct (DataMap.add_entry s0 k e) as [s1 [r|x]] eqn:E; [|done].
    intros Hloop.
    pose proof (exec_NoDup s0 (AddEntry k e) Hnd) as Hnd1.
    apply (exec_Ok s0 (AddEntry k e)) in E as (nms & Hn & Hid & Hr & Hd & _).
    simpl in *.
    destruct (IH s1) as [Hnd' Hnamed]; [|done|].
    + unfold DataMap.iter in *. rewrite Hd, keys_app. simpl.
      apply NoDup_app. split_and!; [done| |apply NoDup_singleton].
      intros x Hx Hx'. apply list_elem_of_singleton in Hx'. by subst x.
    + split.
      * unfold DataMap.iter in *. rewrite Hd, keys_app in Hnd'. simpl in Hnd'.
        by rewrite <- app_assoc in Hnd'.
      * apply Forall_cons. split; [by exists nms | done].
Qed.

(** X12.  [DataMap(data)], for [data] a mapping (no identifier twice):
    when every entry has a ['name'] that is a mapping, the store is built,
    iterates the identifiers in the order of [data], holds each entry as a
    row under its identifier, and its generator is one above [_last_id],
    which is 0 or the greatest identifier of [data] and below no identifier
    of the store; and the store is built only when every entry has such a
    ['name']. *)
Theorem init_builds_store_from_named_entries data :
  NoDup (keys data) →
  (Forall (λ ke, ∃ nms, get "name" ke.2 = Some (VDict nms)) data →
   ∃ s, DataMap.init data = Ok s ∧
        DataMap.iter s = keys data ∧
        DataMap._data s = (λ ke, (ke.1, DataRow.mk ke.1 ke.2)) <$> data ∧
        Forall (λ k, (k ≤ DataMap._last_id s)%Z) (DataMap.iter s) ∧
        DataMap._id_gen s = (DataMap._last_id s + 1)%Z ∧
        (DataMap._last_id s = 0%Z ∨ DataMap._last_id s ∈ keys data))
  ∧ (∀ s, DataMap.init data = Ok s →
       Forall (λ ke, ∃ nms, get "name" ke.2 = Some (VDict nms)) data).
Proof.
  intros Hnd. unfold DataMap.init. split.
  - intros Hnamed.
    destruct (init_loop_named DataMap.empty data)
      as (s & Hloop & Hd & Hle & Hgen & Hlast); try done.
    exists s. simpl in Hd. split_and!; try done.
    unfold DataMap.iter, keys. rewrite Hd, <- list_fmap_compose.
    by apply list_fmap_ext.
  - intros s Hloop. by apply (init_loop_Ok DataMap.empty data s); [apply NoDup_nil_2|].
Qed.

Lemma init_builds_store_from_named_entries_witness :
  ∃ s, DataMap.init [(5%Z, named "Fire"); (2%Z, named "Ice")] = Ok s ∧
       DataMap.iter s = [5; 2]%Z ∧ DataMap._id_gen s = (DataMap._last_id s + 1)%Z.
Proof.
  destruct (proj1 (init_builds_store_from_named_entries
                     [(5%Z, named "Fire"); (2%Z, named "Ice")]
                     ltac:(compute_done)))
    as (s & Hs & Hiter & _ & _ & Hgen & _).
  - repeat constructor; simpl; eauto.
  - exists s. by split_and!.
Defined.

(** X13.  [DataMap(data)] builds no store when an entry has no ['name']:
    with the entries before it in order (a ['name'] that is a mapping,
    identifiers all different), the missing-name [KeyError] of that entry
    leaves the constructor, and the entries behind it are not looked at. *)
Theorem init_raises_on_first_nameless_entry pre k e post :
  NoDup (keys pre) →
  Forall (λ ke, ∃ nms, get "name" ke.2 = Some (VDict nms)) pre →
  contains "name" e = false →
  DataMap.init (pre ++ (k, e) :: post) = Raise MissingField.
Proof.
  intros Hnd Hnamed He. unfold DataMap.init.
  assert (∀ s0 l, DataMap.init_loop s0 (l ++ (k, e) :: post)
                  = match DataMap.init_loop s0 l with
                    | Ok s => DataMap.init_loop s ((k, e) :: post)
                    | Raise x => Raise x
                    end) as Happ.
  { intros s0 l. revert s0. induction l as [|[k' e'] l IH]; intros s0; [done|].
    simpl. destruct (DataMap.add_entry s0 k' e') as [s1 [r|x]]; [apply IH | done]. }
  rewrite Happ.
  destruct (init_loop_named DataMap.empty pre) as (s & -> & _); try done.
  simpl. unfold DataMap.add_entry.
  by rewrite _add_entry_missing_name.
Qed.

Lemma init_raises_on_first_nameless_entry_witness :
  DataMap.init [(1%Z, named "Fire"); (2%Z, [("rarity", VInt 3)]);
                (3%Z, named "Ice")] = Raise MissingField.
Proof.
  apply (init_raises_on_first_nameless_entry [(1%Z, named "Fire")] 2
           [("rarity", VInt 3)] [(3%Z, named "Ice")]).
  - compute_done.
  - repeat constructor; simpl; eauto.
  - reflexivity.
Defined.
End init_facts.

(** ** Generated identifiers: [insert] and [extend] *)

Section extend_facts.
Implicit Types (s : DataMap.t) (e : list (string * value))
  (es : list (list (string * value))).

Lemma insert_fresh s e nms :
  get "name" e = Some (VDict nms) → DataMap._id_gen s ∉ DataMap.iter s →
  DataMap.insert s e
  = (DataMap.mk
       (DataMap._data s ++ [(DataMap._id_gen s, DataRow.mk (DataMap._id_gen s) e)])
       (DataMap.index_names (DataMap._id_gen s) nms (DataMap._reverse_entries s))
       (DataMap._id_gen s + 1) (DataMap._last_id s),
     Ok (DataRow.mk (DataMap._id_gen s) e)).
Proof.
  intros Hn Hid. unfold DataMap.insert. by rewrite (_add_entry_fresh _ _ _ nms).
Qed.

Lemma below_gen_fresh s :
  Forall (λ k, (k < DataMap._id_gen s)%Z) (DataMap.iter s) →
  DataMap._id_gen s ∉ DataMap.iter s.
Proof.
  intros Hlt Hin. rewrite Forall_forall in Hlt. specialize (Hlt _ Hin). lia.
Qed.

(** X14.  On a store whose identifiers are all below the generator (a new
    store, one built by the constructor, and, by this very property, one
    they have been inserted into since), [insert] never meets an identifier
    in use: it advances the generator by one and keeps the identifiers below
    it, whether it raises or not; the row it returns has the former value of
    the generator as identifier, above every identifier of the store; and it
    returns a row whenever the entry has a ['name'] that is a mapping. *)
Theorem insert_generates_fresh_identifier s e :
  Forall (λ k, (k < DataMap._id_gen s)%Z) (DataMap.iter s) →
  DataMap._id_gen (DataMap.insert s e).1 = (DataMap._id_gen s + 1)%Z ∧
  DataMap._last_id (DataMap.insert s e).1 = DataMap._last_id s ∧
  Forall (λ k, (k < DataMap._id_gen (DataMap.insert s e).1)%Z)
         (DataMap.iter (DataMap.insert s e).1) ∧
  (DataMap.insert s e).2 ≠ Raise DuplicateKey ∧
  (∀ r, (DataMap.insert s e).2 = Ok r →
     DataRow.id r = DataMap._id_gen s ∧
     Forall (λ k, (k < DataRow.id r)%Z) (DataMap.iter s)) ∧
  ((∃ nms, get "name" e = Some (VDict nms)) →
   (DataMap.insert s e).2 = Ok (DataRow.mk (DataMap._id_gen s) e)).
Proof.
  intros Hlt. pose proof (below_gen_fresh s Hlt) as Hfresh.
  destruct (DataMap.insert s e) as [s' [r|x]] eqn:E; simpl.
  - pose proof E as E'.
    apply (exec_Ok s (Insert e)) in E' as (nms & Hn & _ & Hr & _). simpl in *.
    rewrite (insert_fresh s e nms) in E by done. injection E as <- _. simpl.
    split_and!; try done.
    + unfold DataMap.iter. simpl. rewrite keys_app. apply Forall_app. split.
      * eapply Forall_impl; [exact Hlt|]. simpl. intros. lia.
      * apply Forall_singleton. simpl. lia.
    + intros r' [= <-]. rewrite Hr. done.
    + intros _. by rewrite Hr.
  - unfold DataMap.insert in E. pose proof E as E'.
    apply _add_entry_Raise in E' as ->. simpl. split_and!; try done.
    + unfold DataMap.iter. simpl.
      eapply Forall_impl; [exact Hlt|]. simpl. intros. lia.
    + intros [= ->]. unfold DataMap._add_entry in E. simpl in E.
      destruct (negb (contains "name" e)); [done|].
      rewrite (proj2 (contains_false_keys _ _) Hfresh) in E.
      unfold DataRow.names, DataRow.getitem in E. simpl in E.
      destruct (get "name" e) as [[?|?|?]|]; discriminate.
    + intros [nms Hn]. exfalso.
      rewrite (_add_entry_fresh _ _ _ nms) in E by done. done.
Qed.

Lemma insert_generates_fresh_identifier_witness :
  let s := (DataMap.add_entry DataMap.empty 10 (named "Fire")).1 in
  (DataMap.insert s (named "Ice")).2 = Ok (DataRow.mk 11 (named "Ice")).
Proof.
  intros s.
  destruct (insert_generates_fresh_identifier s (named "Ice"))
    as (_ & _ & _ & _ & _ & Hok).
  - compute_done.
  - apply Hok. by eexists.
Defined.

Lemma extend_app s es1 es2 :
  (DataMap.extend s es1).2 = Ok () →
  DataMap.extend s (es1 ++ es2) = DataMap.extend (DataMap.extend s es1).1 es2.
Proof.
  revert s. induction es1 as [|e es1 IH]; intros s; simpl; [done|].
  destruct (DataMap.insert s e) as [s1 [r|x]]; [apply IH | done].
Qed.

(** X15.  On a store whose identifiers are all below the generator,
    [extend] with entries that each have a ['name'] that is a mapping does
    not raise: it appends the entries as rows in their order, under the
    consecutive identifiers from the generator on, and leaves the generator
    that many higher, with [_last_id] as it was. *)
Theorem extend_assigns_consecutive_identifiers s es :
  Forall (λ k, (k < DataMap._id_gen s)%Z) (DataMap.iter s) →
  Forall (λ e, ∃ nms, get "name" e = Some (VDict nms)) es →
  (DataMap.extend s es).2 = Ok () ∧
  DataMap._data (DataMap.extend s es).1
  = DataMap._data s
    ++ zip_with (λ k e, (k, DataRow.mk k e))
                (seqZ (DataMap._id_gen s) (Z.of_nat (length es))) es ∧
  DataMap.iter (DataMap.extend s es).1
  = DataMap.iter s ++ seqZ (DataMap._id_gen s) (Z.of_nat (length es)) ∧
  DataMap._id_gen (DataMap.extend s es).1 = (DataMap._id_gen s + Z.of_nat (length es))%Z ∧
  DataMap._last_id (DataMap.extend s es).1 = DataMap._last_id s.
Proof.
  intros Hlt Hnamed. revert s Hlt.
  induction Hnamed as [|e es [nms Hn] Hnamed IH]; intros s Hlt.
  - simpl. rewrite !app_nil_r. split_and!; try done. lia.
  - simpl. rewrite (insert_fresh s e nms) by (done || by apply below_gen_fresh).
    set (s1 := DataMap.mk _ _ _ _).
    destruct (IH s1) as (Hr & Hd & Hi & Hg & Hl).
    { unfold DataMap.iter. subst s1. simpl. rewrite keys_app.
      apply Forall_app. split.
      - eapply Forall_impl; [exact Hlt|]. simpl. intros. lia.
      - apply Forall_singleton. simpl. lia. }
    assert (seqZ (DataMap._id_gen s) (Z.of_nat (S (length es)))
            = DataMap._id_gen s
              :: seqZ (DataMap._id_gen s + 1) (Z.of_nat (length es)))
      as Hseq.
    { rewrite seqZ_cons by lia. f_equal. f_equal; lia. }
    rewrite Hseq. split_and!.
    + done.
    + rewrite Hd. subst s1. simpl. by rewrite <- app_assoc.
    + rewrite Hi. subst s1. unfold DataMap.iter. simpl.
      rewrite keys_app. simpl. by rewrite <- app_assoc.
    + rewrite Hg. subst s1. simpl. lia.
    + rewrite Hl. by subst s1.
Qed.

Lemma extend_assigns_consecutive_identifiers_witness :
  let s := (DataMap.add_entry DataMap.empty 10 (named "Fire")).1 in
  DataMap.iter (DataMap.extend s [named "Ice"; named "Water"]).1
  = [10; 11; 12]%Z.
Proof.
  intros s.
  destruct (extend_assigns_consecutive_identifiers s [named "Ice"; named "Water"])
    as (_ & _ & Hi & _).
  - compute_done.
  - repeat constructor; by eexists.
  - exact Hi.
Defined.

(** X16.  [extend] is not atomic.  When the entries [es1] have gone in and
    [insert] raises on the next entry [e], [extend] raises the same
    exception there: the rows and the reverse index are those after [es1],
    the generator is one further, and the entries behind [e] are not looked
    at. *)
Theorem extend_stops_at_first_failure s es1 e es2 x :
  (DataMap.extend s es1).2 = Ok () →
  (DataMap.insert (DataMap.extend s es1).1 e).2 = Raise x →
  DataMap.extend s (es1 ++ e :: es2)
  = ((DataMap.insert (DataMap.extend s es1).1 e).1, Raise x) ∧
  DataMap._data (DataMap.extend s (es1 ++ e :: es2)).1
  = DataMap._data (DataMap.extend s es1).1 ∧
  DataMap._reverse_entries (DataMap.extend s (es1 ++ e :: es2)).1
  = DataMap._reverse_entries (DataMap.extend s es1).1 ∧
  DataMap._id_gen (DataMap.extend s (es1 ++ e :: es2)).1
  = (DataMap._id_gen (DataMap.extend s es1).1 + 1)%Z.
Proof.
  intros Hes1 He. rewrite extend_app by done. simpl.
  destruct (DataMap.insert (DataMap.extend s es1).1 e) as [s1 res] eqn:E.
  simpl in He. subst res. simpl. split; [done|].
  unfold DataMap.insert in E. apply _add_entry_Raise in E as ->. done.
Qed.

Lemma extend_stops_at_first_failure_witness :
  DataMap.iter (DataMap.extend DataMap.empty [named "Fire"; []; named "Ice"]).1
  = [1%Z]
  ∧ (DataMap.extend DataMap.empty [named "Fire"; []; named "Ice"]).2
    = Raise MissingField.
Proof.
  destruct (extend_stops_at_first_failure DataMap.empty [named "Fire"] []
              [named "Ice"] MissingField) as (Hx & Hd & _).
  - reflexivity.
  - reflexivity.
  - split.
    + unfold DataMap.iter. simpl app in Hd. by rewrite Hd.
    + simpl app in Hx. by rewrite Hx.
Defined.
End extend_facts.

(** ** Explicit identifiers: [add_entry] *)

(** X17.  On a store whose generator is one above [_last_id] and whose
    identifiers are none above [_last_id] (a new store, or one built by the
    constructor), [add_entry] keeps both, whether it raises or not;
    [_last_id] becomes the greater of its former value and the identifier
    given; and a call with an identifier that is in the store leaves the
    whole store, generator included, as it was. *)
Theorem add_entry_keeps_generator_above_identifiers s id e :
  Forall (λ k, (k ≤ DataMap._last_id s)%Z) (DataMap.iter s) →
  DataMap._id_gen s = (DataMap._last_id s + 1)%Z →
  Forall (λ k, (k ≤ DataMap._last_id (DataMap.add_entry s id e).1)%Z)
         (DataMap.iter (DataMap.add_entry s id e).1) ∧
  DataMap._id_gen (DataMap.add_entry s id e).1
  = (DataMap._last_id (DataMap.add_entry s id e).1 + 1)%Z ∧
  DataMap._last_id (DataMap.add_entry s id e).1
  = Z.max (DataMap._last_id s) id ∧
  (id ∈ DataMap.iter s → (DataMap.add_entry s id e).1 = s).
Proof.
  intros Hle Hgen. unfold DataMap.add_entry.
  set (s1 := if (_ <? _)%Z then _ else _).
  assert (DataMap._data s1 = DataMap._data s ∧
          DataMap._id_gen s1 = (DataMap._last_id s1 + 1)%Z ∧
          DataMap._last_id s1 = Z.max (DataMap._last_id s) id ∧
          (id ≤ DataMap._last_id s → s1 = s)%Z) as (Hd1 & Hg1 & Hl1 & Hs1).
  { subst s1. destruct (DataMap._last_id s <? id)%Z eqn:Hlt.
    - apply Z.ltb_lt in Hlt. simpl. split_and!; try done; lia.
    - apply Z.ltb_ge in Hlt. split_and!; try done. lia. }
  assert (Forall (λ k, (k ≤ DataMap._last_id s1)%Z) (DataMap.iter s)) as Hle1.
  { eapply Forall_impl; [exact Hle|]. simpl. intros. lia. }
  destruct (DataMap._add_entry s1 id e) as [s' [r|x]] eqn:E; simpl.
  - apply _add_entry_Ok in E as (nms & _ & Hid & _ & ->). simpl.
    unfold DataMap.iter in *. simpl. rewrite Hd1 in *. split_and!; try done.
    rewrite keys_app. apply Forall_app. split; [done|].
    apply Forall_singleton. simpl. lia.
  - apply _add_entry_Raise in E as ->. unfold DataMap.iter in *.
    rewrite Hd1. split_and!; try done.
    intros Hin. apply Hs1. rewrite Forall_forall in Hle. by apply Hle.
Qed.

Lemma add_entry_keeps_generator_above_identifiers_witness :
  let s := (DataMap.add_entry DataMap.empty 5 (named "Fire")).1 in
  (DataMap.add_entry s 5 []).1 = s ∧
  DataMap._last_id (DataMap.add_entry s 9 []).1 = 9%Z.
Proof.
  intros s. split.
  - apply (add_entry_keeps_generator_above_identifiers s 5 []);
      [compute_done | reflexivity | compute_done].
  - destruct (add_entry_keeps_generator_above_identifiers s 9 [])
      as (_ & _ & Hl & _); [compute_done | reflexivity | exact Hl].
Defined.
